(** * SkillSage quiz service: the cache-or-generate handler

    A shallow embedding of [backend/src/routes/quiz.ts] (the Express
    handler [generateQuizHandler] and its helper [getDomainTitle]), of
    the global error handler of [backend/src/index.ts] and of the page
    that takes the quiz, [src/pages/student/Quiz.tsx].

    The handler talks to two collaborators, the hosted store and the
    generative model, at its [await] points.  It is embedded as a
    program tree whose nodes are those calls, so that one definition
    serves the sequential runs, the runs against an arbitrary
    collaborator and the interleavings of several requests. *)

From Stdlib Require Import NArith Ascii String.
From stdpp Require Import base numbers option list sorting relations gmap.

Local Open Scope N_scope.
Set Warnings "-register-all".

(** ** JavaScript strings

    A JavaScript string is a sequence of UTF-16 code units. *)

Abbreviation code_unit := N (only parsing).
Abbreviation jsstring := (list N) (only parsing).

(** A literal of the source, written as a Rocq string (ASCII only). *)
Definition js (s : string) : jsstring :=
  map N_of_ascii (list_ascii_of_string s).

(** The same, for literals that contain double quotes: they are written
    with apostrophes, which stand for the double quote (code unit 34). *)
Definition jsq (s : string) : jsstring :=
  map (fun c => if c =? 39 then 34 else c) (js s).

(** [WhiteSpace] and [LineTerminator] of ECMAScript: what
    [String.prototype.trim] removes and what [\s] matches. *)
Definition is_js_space (c : code_unit) : bool :=
  ((0x09 <=? c) && (c <=? 0x0D))
  || (c =? 0x20) || (c =? 0xA0) || (c =? 0x1680)
  || ((0x2000 <=? c) && (c <=? 0x200A))
  || (c =? 0x2028) || (c =? 0x2029) || (c =? 0x202F)
  || (c =? 0x205F) || (c =? 0x3000) || (c =? 0xFEFF).

Fixpoint trim_start (s : jsstring) : jsstring :=
  match s with
  | c :: r => if is_js_space c then trim_start r else s
  | [] => []
  end.

Definition trim_end (s : jsstring) : jsstring := rev (trim_start (rev s)).

(** [s.trim()] *)
Definition trim (s : jsstring) : jsstring := trim_end (trim_start s).

(** Case folding of the [i] flag on the ASCII letters of the pattern. *)
Definition lower_ascii (c : code_unit) : code_unit :=
  if (0x41 <=? c) && (c <=? 0x5A) then c + 0x20 else c.

(** Matches the (lower-case) literal [pat] at the start of [s], ignoring
    ASCII case, and returns what follows the match. *)
Fixpoint match_prefix_ci (pat s : jsstring) : option jsstring :=
  match pat, s with
  | [], _ => Some s
  | p :: pat', c :: s' =>
      if lower_ascii c =? p then match_prefix_ci pat' s' else None
  | _ :: _, [] => None
  end.

(** [s.replace(/^```json\s*/i, '')] *)
Definition replace_leading_fence (s : jsstring) : jsstring :=
  match match_prefix_ci (js "```json") s with
  | Some r => trim_start r
  | None => s
  end.

(** [s.replace(/```$/, '')] *)
Definition replace_trailing_fence (s : jsstring) : jsstring :=
  match rev s with
  | 0x60 :: 0x60 :: 0x60 :: r => rev r
  | _ => s
  end.

(** [rawResponse.replace(/^```json\s*/i, '').replace(/```$/, '').trim()] *)
Definition clean_response (rawResponse : jsstring) : jsstring :=
  trim (replace_trailing_fence (replace_leading_fence rawResponse)).

(** ** JSON values and [JSON.parse]

    The values [JSON.parse] can return.  A number keeps its lexeme; the
    handler never computes with one.  An object keeps its members in
    source order, duplicates included. *)

Inductive json : Type :=
| JNull
| JBool (b : bool)
| JNumber (lexeme : jsstring)
| JString (s : jsstring)
| JArray (items : list json)
| JObject (members : list (jsstring * json)).

Inductive token : Type :=
| TLBracket | TRBracket | TLBrace | TRBrace | TComma | TColon
| TString (s : jsstring)
| TNumber (lexeme : jsstring)
| TTrue | TFalse | TNull.

(** The JSON number grammar as an automaton: an optional minus sign; a
    single zero or a non-zero digit followed by digits; optionally a dot
    and at least one digit; optionally an exponent mark, an optional sign
    and at least one digit. *)
Inductive num_state : Type :=
| NMinus | NZero | NInt | NDot | NFrac | NExp | NExpSign | NExpDigits.

Definition is_digit (c : code_unit) : bool := (0x30 <=? c) && (c <=? 0x39).
Definition is_exp_mark (c : code_unit) : bool := (c =? 0x65) || (c =? 0x45).

Definition num_start (c : code_unit) : option num_state :=
  if c =? 0x2D then Some NMinus
  else if c =? 0x30 then Some NZero
  else if is_digit c then Some NInt
  else None.

Definition num_next (st : num_state) (c : code_unit) : option num_state :=
  match st with
  | NMinus =>
      if c =? 0x30 then Some NZero else if is_digit c then Some NInt else None
  | NZero =>
      if c =? 0x2E then Some NDot else if is_exp_mark c then Some NExp else None
  | NInt =>
      if is_digit c then Some NInt
      else if c =? 0x2E then Some NDot
      else if is_exp_mark c then Some NExp else None
  | NDot => if is_digit c then Some NFrac else None
  | NFrac =>
      if is_digit c then Some NFrac
      else if is_exp_mark c then Some NExp else None
  | NExp =>
      if (c =? 0x2B) || (c =? 0x2D) then Some NExpSign
      else if is_digit c then Some NExpDigits else None
  | NExpSign => if is_digit c then Some NExpDigits else None
  | NExpDigits => if is_digit c then Some NExpDigits else None
  end.

Definition num_accepting (st : num_state) : bool :=
  match st with
  | NZero | NInt | NFrac | NExpDigits => true
  | _ => false
  end.

Definition hex_value (c : code_unit) : option N :=
  if is_digit c then Some (c - 0x30)
  else if (0x61 <=? c) && (c <=? 0x66) then Some (c - 0x61 + 10)
  else if (0x41 <=? c) && (c <=? 0x46) then Some (c - 0x41 + 10)
  else None.

(** JSON white space is narrower than JavaScript's: tab, line feed,
    carriage return and space. *)
Definition is_json_space (c : code_unit) : bool :=
  (c =? 0x09) || (c =? 0x0A) || (c =? 0x0D) || (c =? 0x20).

(** The lexer reads one code unit at a time.  Accumulators are kept in
    reverse. *)
Inductive lex_state : Type :=
| LIdle
| LString (acc : jsstring)
| LEscape (acc : jsstring)
| LUnicode (acc : jsstring) (seen : nat) (value : N)
| LNumber (st : num_state) (acc : jsstring)
| LLiteral (expect : jsstring) (tok : token).

Definition lex_idle (c : code_unit) : option (lex_state * list token) :=
  if is_json_space c then Some (LIdle, [])
  else if c =? 0x5B then Some (LIdle, [TLBracket])
  else if c =? 0x5D then Some (LIdle, [TRBracket])
  else if c =? 0x7B then Some (LIdle, [TLBrace])
  else if c =? 0x7D then Some (LIdle, [TRBrace])
  else if c =? 0x2C then Some (LIdle, [TComma])
  else if c =? 0x3A then Some (LIdle, [TColon])
  else if c =? 0x22 then Some (LString [], [])
  else if c =? 0x74 then Some (LLiteral (js "rue") TTrue, [])
  else if c =? 0x66 then Some (LLiteral (js "alse") TFalse, [])
  else if c =? 0x6E then Some (LLiteral (js "ull") TNull, [])
  else match num_start c with
       | Some st => Some (LNumber st [c], [])
       | None => None
       end.

Definition lex_escape (acc : jsstring) (c : code_unit) : option lex_state :=
  if c =? 0x22 then Some (LString (0x22 :: acc))
  else if c =? 0x5C then Some (LString (0x5C :: acc))
  else if c =? 0x2F then Some (LString (0x2F :: acc))
  else if c =? 0x62 then Some (LString (0x08 :: acc))
  else if c =? 0x66 then Some (LString (0x0C :: acc))
  else if c =? 0x6E then Some (LString (0x0A :: acc))
  else if c =? 0x72 then Some (LString (0x0D :: acc))
  else if c =? 0x74 then Some (LString (0x09 :: acc))
  else if c =? 0x75 then Some (LUnicode acc 0 0)
  else None.

Definition lex_step (st : lex_state) (c : code_unit)
  : option (lex_state * list token) :=
  match st with
  | LIdle => lex_idle c
  | LString acc =>
      if c =? 0x22 then Some (LIdle, [TString (rev acc)])
      else if c =? 0x5C then Some (LEscape acc, [])
      else if c <? 0x20 then None
      else Some (LString (c :: acc), [])
  | LEscape acc =>
      match lex_escape acc c with
      | Some st' => Some (st', [])
      | None => None
      end
  | LUnicode acc seen value =>
      match hex_value c with
      | Some d =>
          let value' := 16 * value + d in
          match seen with
          | 3%nat => Some (LString (value' :: acc), [])
          | _ => Some (LUnicode acc (S seen) value', [])
          end
      | None => None
      end
  | LNumber nst acc =>
      match num_next nst c with
      | Some nst' => Some (LNumber nst' (c :: acc), [])
      | None =>
          if num_accepting nst then
            match lex_idle c with
            | Some (st', toks) => Some (st', TNumber (rev acc) :: toks)
            | None => None
            end
          else None
      end
  | LLiteral expect tok =>
      match expect with
      | e :: [] => if c =? e then Some (LIdle, [tok]) else None
      | e :: rest => if c =? e then Some (LLiteral rest tok, []) else None
      | [] => None
      end
  end.

Definition lex_end (st : lex_state) : option (list token) :=
  match st with
  | LIdle => Some []
  | LNumber nst acc =>
      if num_accepting nst then Some [TNumber (rev acc)] else None
  | _ => None
  end.

Fixpoint lex (st : lex_state) (s : jsstring) : option (list token) :=
  match s with
  | [] => lex_end st
  | c :: r =>
      match lex_step st c with
      | Some (st', toks) =>
          match lex st' r with
          | Some rest => Some (toks ++ rest)
          | None => None
          end
      | None => None
      end
  end.

(** The parser reads one token at a time and keeps the open arrays and
    objects on a stack. *)
Inductive frame : Type :=
| InArray (acc : list json)
| InObject (acc : list (jsstring * json)) (key : jsstring).

Inductive parse_mode : Type :=
| MValue
| MArrayStart
| MObjectStart
| MKey (acc : list (jsstring * json))
| MColon (acc : list (jsstring * json)) (key : jsstring)
| MDone (v : json).

Definition scalar_of_token (t : token) : option json :=
  match t with
  | TString s => Some (JString s)
  | TNumber l => Some (JNumber l)
  | TTrue => Some (JBool true)
  | TFalse => Some (JBool false)
  | TNull => Some JNull
  | _ => None
  end.

Definition parse_value_start (stack : list frame) (t : token)
  : option (list frame * parse_mode) :=
  match t with
  | TLBracket => Some (stack, MArrayStart)
  | TLBrace => Some (stack, MObjectStart)
  | _ =>
      match scalar_of_token t with
      | Some v => Some (stack, MDone v)
      | None => None
      end
  end.

Definition parse_step (stack : list frame) (m : parse_mode) (t : token)
  : option (list frame * parse_mode) :=
  match m with
  | MValue => parse_value_start stack t
  | MArrayStart =>
      match t with
      | TRBracket => Some (stack, MDone (JArray []))
      | _ => parse_value_start (InArray [] :: stack) t
      end
  | MObjectStart =>
      match t with
      | TRBrace => Some (stack, MDone (JObject []))
      | TString k => Some (stack, MColon [] k)
      | _ => None
      end
  | MKey acc =>
      match t with
      | TString k => Some (stack, MColon acc k)
      | _ => None
      end
  | MColon acc k =>
      match t with
      | TColon => Some (InObject acc k :: stack, MValue)
      | _ => None
      end
  | MDone v =>
      match stack, t with
      | InArray acc :: stack', TComma => Some (InArray (v :: acc) :: stack', MValue)
      | InArray acc :: stack', TRBracket =>
          Some (stack', MDone (JArray (rev (v :: acc))))
      | InObject acc k :: stack', TComma => Some (stack', MKey ((k, v) :: acc))
      | InObject acc k :: stack', TRBrace =>
          Some (stack', MDone (JObject (rev ((k, v) :: acc))))
      | _, _ => None
      end
  end.

Fixpoint parse_tokens (stack : list frame) (m : parse_mode) (ts : list token)
  : option json :=
  match ts with
  | [] =>
      match stack, m with
      | [], MDone v => Some v
      | _, _ => None
      end
  | t :: ts' =>
      match parse_step stack m t with
      | Some (stack', m') => parse_tokens stack' m' ts'
      | None => None
      end
  end.

(** [JSON.parse(text)]; [None] is the [SyntaxError] it throws. *)
Definition JSON_parse (text : jsstring) : option json :=
  match lex LIdle text with
  | Some ts => parse_tokens [] MValue ts
  | None => None
  end.

(** ** Data model

    Identifiers are generated by the store and opaque to the handler. *)

Abbreviation quiz_id := nat (only parsing).

(** The error object of the store client ([PostgrestError]). *)
Record pg_error : Type := { code : jsstring; message : jsstring }.

(** The [{ data, error }] pair every store query resolves to. *)
Record sb_result (A : Type) : Type := { data : option A; error : option pg_error }.
Arguments data {A} _.
Arguments error {A} _.
Arguments Build_sb_result {A} _ _.

(** A row of [questionsToInsert].  A field the parsed entry does not have
    is [undefined], here [None]. *)
Record new_question : Type := {
  quiz_id_ : quiz_id;
  question : option json;
  options : option json;
  correct_answer : option json;
  question_order : nat
}.

(** A row as selected by
    [select('id, question, options, correct_answer, question_order')]. *)
Record question_row : Type := {
  row_id : nat;
  row_question : json;
  row_options : json;
  row_correct_answer : json;
  row_question_order : nat
}.

(** The JSON body of a response: [{ message, error? }] or the selected
    [data] ([null] when the store gave none). *)
Inductive body : Type :=
| Message (msg : jsstring) (detail : option jsstring)
| Questions (rows : option (list question_row)).

Record response : Type := { status : nat; payload : body }.

(** [req.query.domain] as the query parser of Express delivers it. *)
Inductive query_value : Type :=
| QUndefined
| QString (s : jsstring)
| QArray (items : list jsstring)
| QObject (fields : list (jsstring * jsstring)).

Record request : Type := { query_domain : query_value }.

(** A thrown value; only its [message] is ever read. *)
Inductive js_error : Type := JsError (msg : jsstring).

Definition error_message (e : js_error) : jsstring :=
  match e with JsError m => m end.

(** What [openai.chat.completions.create] settles to: the promise is
    rejected, or it is fulfilled and
    [response.choices[0]?.message?.content] is a string or is missing. *)
Inductive model_result : Type :=
| Completion (content : option jsstring)
| Rejected (e : js_error).

(** ** Programs

    The calls the handler awaits, indexed by the type of their result,
    and the response it sends. *)
Inductive quizE : Type -> Type :=
| SelectQuizId (domain : jsstring) : quizE (sb_result quiz_id)
| InsertQuiz (domain title : jsstring) : quizE (sb_result quiz_id)
| SelectQuestionIds (quizId : quiz_id) : quizE (sb_result (list nat))
| SelectQuestions (quizId : quiz_id) : quizE (sb_result (list question_row))
| InsertQuestions (rows : list new_question) : quizE (option pg_error)
| ChatCompletionsCreate (prompt : jsstring) : quizE model_result
| ResJson (r : response) : quizE unit.
(* [ResJson r] is [res.status(status r).json(payload r)]. *)

Inductive prog (R : Type) : Type :=
| Ret (r : R)
| Throw (e : js_error)
| Vis {X : Type} (e : quizE X) (k : X -> prog R).
Arguments Ret {R} _.
Arguments Throw {R} _.
Arguments Vis {R X} _ _.

Definition call {X : Type} (e : quizE X) : prog X := Vis e Ret.

Fixpoint bind {A B : Type} (p : prog A) (k : A -> prog B) : prog B :=
  match p with
  | Ret a => k a
  | Throw e => Throw e
  | Vis e h => Vis e (fun x => bind (h x) k)
  end.

(** [try { p } catch (error) { h error }] *)
Fixpoint try_catch {A : Type} (p : prog A) (h : js_error -> prog A) : prog A :=
  match p with
  | Ret a => Ret a
  | Throw e => h e
  | Vis e k => Vis e (fun x => try_catch (k x) h)
  end.

Notation "'let!' x ':=' p 'in' k" := (bind p (fun x => k))
  (at level 10, x name, p at level 200, k at level 200).

(** ** The handler *)

Definition PGRST116 : jsstring := js "PGRST116".

(** [getDomainTitle] *)
Definition getDomainTitle (domain : jsstring) : jsstring :=
  if decide (domain = js "web-development") then js "Web Development Quiz"
  else if decide (domain = js "data-science") then js "Data Science Quiz"
  else if decide (domain = js "backend") then js "Backend Development Quiz"
  else if decide (domain = js "ai-ml") then js "AI / ML Quiz"
  else if decide (domain = js "networking") then js "Computer Networking Quiz"
  else if decide (domain = js "algorithms") then js "Algorithms & Data Structures Quiz"
  else js "Skill Assessment Quiz".

(** The template literal [prompt]. *)
Definition prompt_of (domain : jsstring) : jsstring :=
  jsq "Generate exactly 10 multiple-choice questions about '" ++ domain ++
  jsq "'.
Each question should have 4 options (A, B, C, D), and the correct answer should be specified by the key 'correct_answer' as the option letter.
Format your response as a JSON array of 10 objects like:
[
  {
    'question': 'What is Linux?',
    'options': {
      'A': 'An OS',
      'B': 'A programming language',
      'C': 'A database',
      'D': 'A cloud service'
    },
    'correct_answer': 'A'
  },
  ...
]
Return ONLY the JSON array.".

(** The inner [try] block: [JSON.parse], [Array.isArray(parsed) ? parsed : []]
    and the length test.  [None] is its [catch]. *)
Definition parse_quiz_questions (cleanedResponse : jsstring) : option (list json) :=
  match JSON_parse cleanedResponse with
  | None => None
  | Some parsed =>
      let quizQuestions := match parsed with JArray items => items | _ => [] end in
      if decide (length quizQuestions = 10%nat) then Some quizQuestions else None
  end.

(** [q.key] for a parsed value [q]: a [TypeError] on [null], the last
    member of that name on an object, [undefined] on anything else. *)
Fixpoint lookup_member (key : jsstring) (members : list (jsstring * json))
  : option json :=
  match members with
  | [] => None
  | (k, v) :: rest =>
      match lookup_member key rest with
      | Some v' => Some v'
      | None => if decide (k = key) then Some v else None
      end
  end.

Definition get_property (q : json) (key : jsstring) : js_error + option json :=
  match q with
  | JNull =>
      inl (JsError (js "Cannot read properties of null (reading '" ++ key ++ js "')"))
  | JObject members => inr (lookup_member key members)
  | _ => inr None
  end.

(** The callback of [quizQuestions.map((q, index) => ...)]. *)
Definition question_to_insert (quizId : quiz_id) (index : nat) (q : json)
  : js_error + new_question :=
  match get_property q (js "question") with
  | inl e => inl e
  | inr qu =>
      match get_property q (js "options") with
      | inl e => inl e
      | inr op =>
          match get_property q (js "correct_answer") with
          | inl e => inl e
          | inr ca =>
              inr {| quiz_id_ := quizId; question := qu; options := op;
                     correct_answer := ca; question_order := index + 1 |}
          end
      end
  end.

Fixpoint map_from (quizId : quiz_id) (index : nat) (qs : list json)
  : js_error + list new_question :=
  match qs with
  | [] => inr []
  | q :: rest =>
      match question_to_insert quizId index q with
      | inl e => inl e
      | inr row =>
          match map_from quizId (S index) rest with
          | inl e => inl e
          | inr rows => inr (row :: rows)
          end
      end
  end.

Definition questionsToInsert (quizId : quiz_id) (quizQuestions : list json)
  : js_error + list new_question :=
  map_from quizId 0 quizQuestions.

(** [if (quizError && quizError.code !== 'PGRST116')] *)
Definition is_lookup_failure (quizError : option pg_error) : bool :=
  match quizError with
  | Some e => bool_decide (code e ≠ PGRST116)
  | None => false
  end.

(** [existingQuestions && existingQuestions.length > 0] *)
Definition has_questions (existingQuestions : option (list nat)) : bool :=
  match existingQuestions with
  | Some ids => bool_decide (0 < length ids)%nat
  | None => false
  end.

Definition new_error (prefix : string) (e : pg_error) : js_error :=
  JsError (js prefix ++ message e).

(** The responses the handler can send besides the questions. *)
Definition bad_request : response :=
  {| status := 400; payload := Message (js "Domain is required.") None |}.

Definition format_error : response :=
  {| status := 500;
     payload := Message (js "Invalid JSON format from OpenAI.") None |}.

Definition internal_error (e : js_error) : response :=
  {| status := 500;
     payload := Message (js "Internal server error.") (Some (error_message e)) |}.

Definition questions_response (rows : option (list question_row)) : response :=
  {| status := 200; payload := Questions rows |}.

(** Lines 25-52: the quiz of the domain is looked up, and created when
    the lookup gave none. *)
Definition resolve_quiz (domain : jsstring) : prog quiz_id :=
  let! quizLookup := call (SelectQuizId domain) in
  if is_lookup_failure (error quizLookup) then
    Throw (JsError (js "Error checking quiz: " ++
                    from_option message [] (error quizLookup)))
  else
    match data quizLookup with
    | Some existingQuiz => Ret existingQuiz
    | None =>
        let! created := call (InsertQuiz domain (getDomainTitle domain)) in
        match error created with
        | Some createError => Throw (new_error "Error creating quiz: " createError)
        | None =>
            match data created with
            | Some newQuiz => Ret newQuiz
            | None =>
                Throw (JsError (js "Cannot read properties of null (reading 'id')"))
            end
        end
    end.

(** Lines 104-159: what follows the model's answer. *)
Definition use_completion (quizId : quiz_id) (completion : model_result)
  : prog unit :=
  match completion with
  | Rejected e => Throw e
  | Completion content =>
  match trim <$> content with
  | None | Some [] => Throw (JsError (js "OpenAI returned empty response."))
  | Some rawResponse =>
  let cleanedResponse := clean_response rawResponse in
  match parse_quiz_questions cleanedResponse with
  | None => call (ResJson format_error)
  | Some quizQuestions =>
  match questionsToInsert quizId quizQuestions with
  | inl e => Throw e
  | inr rows =>
  let! insertError := call (InsertQuestions rows) in
  match insertError with
  | Some e => Throw (new_error "Error inserting questions: " e)
  | None =>
  let! inserted := call (SelectQuestions quizId) in
  match error inserted with
  | Some fetchError =>
      Throw (new_error "Error fetching inserted questions: " fetchError)
  | None => call (ResJson (questions_response (data inserted)))
  end end end end end end.

(** Lines 54-102: the stored questions are returned when there are some;
    the model is asked otherwise. *)
Definition answer_questions (domain : jsstring) (quizId : quiz_id) : prog unit :=
  let! existing := call (SelectQuestionIds quizId) in
  match error existing with
  | Some questionError => Throw (new_error "Error checking questions: " questionError)
  | None =>
  if has_questions (data existing) then
    let! fetched := call (SelectQuestions quizId) in
    match error fetched with
    | Some fetchError => Throw (new_error "Error fetching questions: " fetchError)
    | None => call (ResJson (questions_response (data fetched)))
    end
  else
    let! completion := call (ChatCompletionsCreate (prompt_of domain)) in
    use_completion quizId completion
  end.

(** The body of the [try] block. *)
Definition quiz_flow (domain : jsstring) : prog unit :=
  let! quizId := resolve_quiz domain in
  answer_questions domain quizId.

(** [generateQuizHandler]: the guard on [req.query.domain]
    ([!domain || typeof domain !== 'string'], which lets through the
    non-empty strings), then the [try] block and its [catch]. *)
Definition generateQuizHandler (req : request) : prog unit :=
  match query_domain req with
  | QString (c :: s) =>
      try_catch (quiz_flow (c :: s)) (fun e => call (ResJson (internal_error e)))
  | _ => call (ResJson bad_request)
  end.

(** The global error handler of [index.ts]; [NODE_ENV] is
    [process.env.NODE_ENV]. *)
Definition globalErrorHandler (NODE_ENV : option jsstring) (err : js_error)
  : response :=
  {| status := 500;
     payload := Message (js "Internal server error")
                  (if decide (NODE_ENV = Some (js "production")) then None
                   else Some (error_message err)) |}.

(** ** Running a program against its collaborators

    A collaborator answers every call from a state of its own; nothing
    is assumed of its answers.  A run records the calls with their
    answers, and whether the program returned or let an exception
    escape. *)

Inductive event : Type :=
| EvSelectQuizId (domain : jsstring) (r : sb_result quiz_id)
| EvInsertQuiz (domain title : jsstring) (r : sb_result quiz_id)
| EvSelectQuestionIds (quizId : quiz_id) (r : sb_result (list nat))
| EvSelectQuestions (quizId : quiz_id) (r : sb_result (list question_row))
| EvInsertQuestions (rows : list new_question) (r : option pg_error)
| EvChatCompletion (prompt : jsstring) (r : model_result)
| EvResJson (r : response).

Definition event_of {X : Type} (e : quizE X) : X -> event :=
  match e in quizE X return X -> event with
  | SelectQuizId d => EvSelectQuizId d
  | InsertQuiz d t => EvInsertQuiz d t
  | SelectQuestionIds q => EvSelectQuestionIds q
  | SelectQuestions q => EvSelectQuestions q
  | InsertQuestions rows => EvInsertQuestions rows
  | ChatCompletionsCreate p => EvChatCompletion p
  | ResJson r => fun _ => EvResJson r
  end.

Inductive exit (A : Type) : Type :=
| Returned (a : A)
| Escaped (e : js_error).
Arguments Returned {A} _.
Arguments Escaped {A} _.

Record collaborator (S : Type) : Type :=
  { answer : forall X : Type, quizE X -> S -> X * S }.
Arguments answer {S} _ {X} _ _.

Fixpoint run {S A : Type} (c : collaborator S) (p : prog A) (s : S)
  : list event * exit A * S :=
  match p with
  | Ret a => ([], Returned a, s)
  | Throw e => ([], Escaped e, s)
  | Vis e k =>
      let '(x, s1) := answer c e s in
      let '(t, ex, s2) := run c (k x) s1 in
      (event_of e x :: t, ex, s2)
  end.

Definition trace_of {S A : Type} (o : list event * exit A * S) : list event :=
  o.1.1.
Definition exit_of {S A : Type} (o : list event * exit A * S) : exit A := o.1.2.
Definition state_of {S A : Type} (o : list event * exit A * S) : S := o.2.

(** What a trace shows of the three kinds of effect. *)
Definition responses (t : list event) : list response :=
  omap (fun ev => match ev with EvResJson r => Some r | _ => None end) t.

Definition is_model_call (ev : event) : bool :=
  match ev with EvChatCompletion _ _ => true | _ => false end.

Definition is_store_write (ev : event) : bool :=
  match ev with
  | EvInsertQuiz _ _ _ | EvInsertQuestions _ _ => true
  | _ => false
  end.

Definition model_calls_in (t : list event) : nat :=
  length (List.filter is_model_call t).

(** ** The store *)

(** Modelled from the spec: the hosted store and its schema are not part
    of the sources.  A row of [quizzes] ([domain] unique, [title]). *)
Record quiz_row : Type := {
  quiz_row_id : quiz_id;
  quiz_domain : jsstring;
  quiz_title : jsstring
}.

(** Modelled from the spec: a row of [quiz_questions] ([quiz_id],
    [question], [options], [correct_answer], [question_order]). *)
Record stored_question : Type := {
  owner : quiz_id;
  columns : question_row
}.

(** Modelled from the spec: the two tables, and the next identifier the
    store will generate. *)
Record store : Type := {
  quizzes : list quiz_row;
  quiz_questions : list stored_question;
  next_id : nat
}.

Definition empty_store : store :=
  {| quizzes := []; quiz_questions := []; next_id := 1 |}.

Definition ok {A : Type} (a : A) : sb_result A :=
  {| data := Some a; error := None |}.

Definition failed {A : Type} (e : pg_error) : sb_result A :=
  {| data := None; error := Some e |}.

Definition no_rows : pg_error :=
  {| code := PGRST116;
     message := js "JSON object requested, multiple (or no) rows returned" |}.

Definition unique_violation : pg_error :=
  {| code := js "23505";
     message := jsq "duplicate key value violates unique constraint 'quizzes_domain_key'" |}.

Definition quizzes_of (d : jsstring) (st : store) : list quiz_row :=
  filter (fun q => quiz_domain q = d) (quizzes st).

Definition questions_of (quizId : quiz_id) (st : store) : list question_row :=
  columns <$> filter (fun q => owner q = quizId) (quiz_questions st).

(** Modelled from the spec: the single-row lookup, which tells the
    absence of a single row ([PGRST116]) from other failures.
    [from('quizzes').select('id').eq('domain', d).single()] *)
Definition select_quiz_id (d : jsstring) (st : store) : sb_result quiz_id :=
  match quizzes_of d st with
  | [q] => ok (quiz_row_id q)
  | _ => failed no_rows
  end.

(** Modelled from the spec: [domain] is unique, the identifier is
    generated by the store.
    [from('quizzes').insert({ domain, title }).select('id').single()] *)
Definition insert_quiz (d title : jsstring) (st : store)
  : sb_result quiz_id * store :=
  match quizzes_of d st with
  | [] =>
      (ok (next_id st),
       {| quizzes := quizzes st ++
            [{| quiz_row_id := next_id st; quiz_domain := d; quiz_title := title |}];
          quiz_questions := quiz_questions st;
          next_id := S (next_id st) |})
  | _ => (failed unique_violation, st)
  end.

Definition by_question_order (a b : question_row) : Prop :=
  (row_question_order a <= row_question_order b)%nat.

#[global] Instance by_question_order_dec (a b : question_row)
  : Decision (by_question_order a b) := Nat.le_dec _ _.

(** Modelled from the spec: the rows of a quiz.
    [from('quiz_questions').select('id').eq('quiz_id', quizId)] *)
Definition select_question_ids (quizId : quiz_id) (st : store)
  : sb_result (list nat) :=
  ok (row_id <$> questions_of quizId st).

(** Modelled from the spec: the rows of a quiz by ascending
    [question_order].
    [from('quiz_questions').select(...).eq('quiz_id', quizId)
      .order('question_order', { ascending: true })] *)
Definition select_questions (quizId : quiz_id) (st : store)
  : sb_result (list question_row) :=
  ok (merge_sort by_question_order (questions_of quizId st)).

(** A field left [undefined] is not sent and is stored as [null]. *)
Definition stored_value (v : option json) : json := default JNull v.

Definition store_question (id : nat) (q : new_question) : stored_question :=
  {| owner := quiz_id_ q;
     columns := {| row_id := id;
                   row_question := stored_value (question q);
                   row_options := stored_value (options q);
                   row_correct_answer := stored_value (correct_answer q);
                   row_question_order := question_order q |} |}.

(** Modelled from the spec: a multi-row insert is one atomic write.
    [from('quiz_questions').insert(rows)] *)
Definition insert_questions (rows : list new_question) (st : store) : store :=
  {| quizzes := quizzes st;
     quiz_questions :=
       quiz_questions st ++ imap (fun i => store_question (next_id st + i)) rows;
     next_id := next_id st + length rows |}.

(** The world of a fault-free run: the store, and a model whose answer
    may depend on the prompt and on how many calls came before. *)
Record world : Type := {
  db : store;
  model : nat -> jsstring -> model_result;
  model_calls : nat
}.

Definition with_db (w : world) (st : store) : world :=
  {| db := st; model := model w; model_calls := model_calls w |}.

Definition exec {X : Type} (e : quizE X) (w : world) : X * world :=
  match e in quizE X return X * world with
  | SelectQuizId d => (select_quiz_id d (db w), w)
  | InsertQuiz d t =>
      let '(r, st) := insert_quiz d t (db w) in (r, with_db w st)
  | SelectQuestionIds q => (select_question_ids q (db w), w)
  | SelectQuestions q => (select_questions q (db w), w)
  | InsertQuestions rows => (None, with_db w (insert_questions rows (db w)))
  | ChatCompletionsCreate p =>
      (model w (model_calls w) p,
       {| db := db w; model := model w; model_calls := S (model_calls w) |})
  | ResJson _ => (tt, w)
  end.

Definition fault_free : collaborator world := {| answer := @exec |}.

(** One request served to completion. *)
Definition serve (req : request) (w : world)
  : list event * exit unit * world :=
  run fault_free (generateQuizHandler req) w.

Definition domain_request (d : jsstring) : request :=
  {| query_domain := QString d |}.

(** Requests served one after the other; the responses in order. *)
Fixpoint serve_all (reqs : list request) (w : world) : list response * world :=
  match reqs with
  | [] => ([], w)
  | req :: rest =>
      let o := serve req w in
      let '(rs, w') := serve_all rest (state_of o) in
      (responses (trace_of o) ++ rs, w')
  end.

(** ** Sample model outputs *)

Definition sample_question : jsstring :=
  jsq "{'question': 'What is Linux?', 'options': {'A': 'An OS', 'B': 'A programming language', 'C': 'A database', 'D': 'A cloud service'}, 'correct_answer': 'A'}".

Definition sample_incomplete : jsstring :=
  jsq "{'question': 'What is Linux?', 'options': {'A': 'An OS', 'B': 'A programming language', 'C': 'A database', 'D': 'A cloud service'}}".

Fixpoint comma_separated (items : list jsstring) : jsstring :=
  match items with
  | [] => []
  | [x] => x
  | x :: rest => x ++ js ", " ++ comma_separated rest
  end.

Definition json_array (items : list jsstring) : jsstring :=
  js "[" ++ comma_separated items ++ js "]".

Definition ten_questions : jsstring := json_array (replicate 10 sample_question).

Definition model_saying (text : jsstring) : nat -> jsstring -> model_result :=
  fun _ _ => Completion (Some text).

Definition fresh_world (text : jsstring) : world :=
  {| db := empty_store; model := model_saying text; model_calls := 0 |}.

(** ** Several requests in flight

    The server runs the handlers of the requests in flight on one event
    loop: a handler runs until its next [await], and the calls of
    different handlers interleave in any order.  A thread is what is
    left of a handler, with the responses it has sent. *)

Record thread : Type := { pending : prog unit; sent : list response }.

Record system : Type := { env : world; threads : list thread }.

Definition sends {X : Type} (e : quizE X) : list response :=
  match e with
  | ResJson r => [r]
  | _ => []
  end.

Definition resume {X : Type} (th : thread) (e : quizE X) (k : X -> prog unit)
  (x : X) : thread :=
  {| pending := k x; sent := sent th ++ sends e |}.

Definition arrival (req : request) : thread :=
  {| pending := generateQuizHandler req; sent := [] |}.

Definition count_model_call (w : world) : world :=
  {| db := db w; model := model w; model_calls := S (model_calls w) |}.

(** What a call may answer when the collaborators may fail: a read
    answers anything and changes nothing; a write takes effect as a
    whole, or fails and leaves the store as it was; the model answers
    anything. *)
Definition may_answer {X : Type} (e : quizE X) (w : world) : X -> world -> Prop :=
  match e in quizE X return X -> world -> Prop with
  | SelectQuizId _ => fun _ w' => w' = w
  | InsertQuiz d t =>
      fun r w' => (r, w') = exec (InsertQuiz d t) w \/ (data r = None /\ w' = w)
  | SelectQuestionIds _ => fun _ w' => w' = w
  | SelectQuestions _ => fun _ w' => w' = w
  | InsertQuestions rows =>
      fun r w' =>
        (r = None /\ w' = with_db w (insert_questions rows (db w)))
        \/ (is_Some r /\ w' = w)
  | ChatCompletionsCreate _ => fun _ w' => w' = count_model_call w
  | ResJson _ => fun _ w' => w' = w
  end.

Inductive step : system -> system -> Prop :=
| step_arrive sys req :
    step sys {| env := env sys; threads := threads sys ++ [arrival req] |}
| step_call sys i th X (e : quizE X) k x w' :
    threads sys !! i = Some th ->
    pending th = Vis e k ->
    may_answer e (env sys) x w' ->
    step sys {| env := w'; threads := <[i := resume th e k x]> (threads sys) |}.

(** A system that starts with no request in flight. *)
Definition boot (w : world) : system := {| env := w; threads := [] |}.

Definition reachable (w : world) (sys : system) : Prop := rtc step (boot w) sys.

(** One fault-free step of thread [i], and a schedule of such steps. *)
Definition advance (i : nat) (sys : system) : system :=
  match threads sys !! i with
  | Some th =>
      match pending th with
      | Vis e k =>
          let '(x, w') := exec e (env sys) in
          {| env := w'; threads := <[i := resume th e k x]> (threads sys) |}
      | _ => sys
      end
  | None => sys
  end.

Definition schedule (order : list nat) (sys : system) : system :=
  foldl (fun s i => advance i s) sys order.

Definition arrivals (reqs : list request) (w : world) : system :=
  {| env := w; threads := arrival <$> reqs |}.


(** Two first requests for a domain the store has never seen, each
    reaching the test for stored questions before the other inserts. *)
Definition race_order : list nat := [0; 0; 0; 1; 1; 0; 1; 0; 1; 0; 0; 1; 1]%nat.

Definition race : system :=
  schedule race_order
    (arrivals (replicate 2 (domain_request (js "algorithms")))
       (fresh_world ten_questions)).

(** ** The paths of the handler

    The runs of the handler against an arbitrary collaborator, phase by
    phase: the calls made with the answers received, and how the phase
    ends.  [handler_paths] below proves that every run is one of them. *)

Inductive resolved (d : jsstring) : list event -> exit quiz_id -> Prop :=
| lookup_failed r e :
    error r = Some e -> code e ≠ PGRST116 ->
    resolved d [EvSelectQuizId d r]
      (Escaped (JsError (js "Error checking quiz: " ++ message e)))
| quiz_found r q :
    is_lookup_failure (error r) = false -> data r = Some q ->
    resolved d [EvSelectQuizId d r] (Returned q)
| create_failed r r' e :
    is_lookup_failure (error r) = false -> data r = None ->
    error r' = Some e ->
    resolved d [EvSelectQuizId d r; EvInsertQuiz d (getDomainTitle d) r']
      (Escaped (new_error "Error creating quiz: " e))
| create_null r r' :
    is_lookup_failure (error r) = false -> data r = None ->
    error r' = None -> data r' = None ->
    resolved d [EvSelectQuizId d r; EvInsertQuiz d (getDomainTitle d) r']
      (Escaped (JsError (js "Cannot read properties of null (reading 'id')")))
| quiz_created r r' q :
    is_lookup_failure (error r) = false -> data r = None ->
    error r' = None -> data r' = Some q ->
    resolved d [EvSelectQuizId d r; EvInsertQuiz d (getDomainTitle d) r']
      (Returned q).

Inductive generation (q : quiz_id) : model_result -> list event -> exit unit -> Prop :=
| model_rejected e : generation q (Rejected e) [] (Escaped e)
| model_no_content :
    generation q (Completion None) []
      (Escaped (JsError (js "OpenAI returned empty response.")))
| model_blank c :
    trim c = [] ->
    generation q (Completion (Some c)) []
      (Escaped (JsError (js "OpenAI returned empty response.")))
| format_rejected c :
    trim c ≠ [] ->
    parse_quiz_questions (clean_response (trim c)) = None ->
    generation q (Completion (Some c)) [EvResJson format_error] (Returned tt)
| map_threw c qs e :
    trim c ≠ [] ->
    parse_quiz_questions (clean_response (trim c)) = Some qs ->
    questionsToInsert q qs = inl e ->
    generation q (Completion (Some c)) [] (Escaped e)
| insert_failed c qs rows e :
    trim c ≠ [] ->
    parse_quiz_questions (clean_response (trim c)) = Some qs ->
    questionsToInsert q qs = inr rows ->
    generation q (Completion (Some c)) [EvInsertQuestions rows (Some e)]
      (Escaped (new_error "Error inserting questions: " e))
| reread_failed c qs rows r e :
    trim c ≠ [] ->
    parse_quiz_questions (clean_response (trim c)) = Some qs ->
    questionsToInsert q qs = inr rows ->
    error r = Some e ->
    generation q (Completion (Some c))
      [EvInsertQuestions rows None; EvSelectQuestions q r]
      (Escaped (new_error "Error fetching inserted questions: " e))
| reread_returned c qs rows r :
    trim c ≠ [] ->
    parse_quiz_questions (clean_response (trim c)) = Some qs ->
    questionsToInsert q qs = inr rows ->
    error r = None ->
    generation q (Completion (Some c))
      [EvInsertQuestions rows None; EvSelectQuestions q r;
       EvResJson (questions_response (data r))]
      (Returned tt).

Inductive answered (d : jsstring) (q : quiz_id) : list event -> exit unit -> Prop :=
| check_failed r e :
    error r = Some e ->
    answered d q [EvSelectQuestionIds q r]
      (Escaped (new_error "Error checking questions: " e))
| fetch_failed r r' e :
    error r = None -> has_questions (data r) = true -> error r' = Some e ->
    answered d q [EvSelectQuestionIds q r; EvSelectQuestions q r']
      (Escaped (new_error "Error fetching questions: " e))
| cache_hit r r' :
    error r = None -> has_questions (data r) = true -> error r' = None ->
    answered d q
      [EvSelectQuestionIds q r; EvSelectQuestions q r';
       EvResJson (questions_response (data r'))]
      (Returned tt)
| cache_miss r m t ex :
    error r = None -> has_questions (data r) = false ->
    generation q m t ex ->
    answered d q
      (EvSelectQuestionIds q r :: EvChatCompletion (prompt_of d) m :: t) ex.

Inductive tried (d : jsstring) : list event -> exit unit -> Prop :=
| tried_unresolved t e :
    resolved d t (Escaped e) -> tried d t (Escaped e)
| tried_resolved t1 t2 q ex :
    resolved d t1 (Returned q) -> answered d q t2 ex -> tried d (t1 ++ t2) ex.

Inductive handled (d : jsstring) : list event -> Prop :=
| handled_returned t : tried d t (Returned tt) -> handled d t
| handled_caught t e :
    tried d t (Escaped e) -> handled d (t ++ [EvResJson (internal_error e)]).

(** ** Properties of collaborators, stores and programs *)

(** A store answer that reports no error carries data. *)
Definition shaped_result {A : Type} (r : sb_result A) : Prop :=
  error r = None -> is_Some (data r).

Definition shaped_answer {X : Type} (e : quizE X) : X -> Prop :=
  match e in quizE X return X -> Prop with
  | SelectQuizId _ => shaped_result
  | InsertQuiz _ _ => shaped_result
  | SelectQuestionIds _ => shaped_result
  | SelectQuestions _ => shaped_result
  | InsertQuestions _ => fun _ => True
  | ChatCompletionsCreate _ => fun _ => True
  | ResJson _ => fun _ => True
  end.

Definition shaped {S : Type} (c : collaborator S) : Prop :=
  forall (X : Type) (e : quizE X) (s : S), shaped_answer e (answer c e s).1.

(** A collaborator whose store is down: every store call fails with
    [e], the model is out of reach. *)
Definition outage (e : pg_error) : collaborator unit :=
  {| answer := fun X (ev : quizE X) (s : unit) =>
       match ev in quizE X return X * unit with
       | SelectQuizId _ => (failed e, s)
       | InsertQuiz _ _ => (failed e, s)
       | SelectQuestionIds _ => (failed e, s)
       | SelectQuestions _ => (failed e, s)
       | InsertQuestions _ => (Some e, s)
       | ChatCompletionsCreate _ => (Rejected (JsError (js "Connection error.")), s)
       | ResJson _ => (tt, s)
       end |}.

Definition connection_refused : pg_error :=
  {| code := js "08006"; message := js "connection refused" |}.

(** A batch: ten rows of one quiz, numbered 1 to 10 in order. *)
Definition batch (rows : list new_question) : Prop :=
  exists q, quiz_id_ <$> rows = replicate 10 q /\
            question_order <$> rows = seq 1 10.



Definition orders_of (quizId : quiz_id) (st : store) : list nat :=
  row_question_order <$> questions_of quizId st.


(** The domain has its quiz and the quiz has questions: [rows], in the
    order the store returns them. *)
Definition cached (d : jsstring) (w : world) (rows : list question_row) : Prop :=
  exists q, select_quiz_id d (db w) = ok q /\
            questions_of q (db w) ≠ [] /\
            rows = merge_sort by_question_order (questions_of q (db w)).

(** The three ways a cleaned model output fails the inner [try] block. *)
Definition bad_format (cleaned : jsstring) : Prop :=
  JSON_parse cleaned = None
  \/ (exists v, JSON_parse cleaned = Some v /\ forall items, v ≠ JArray items)
  \/ (exists items, JSON_parse cleaned = Some (JArray items) /\
                    length items ≠ 10%nat).

(** ** Further definitions used in the statements *)

(** An event as the collaborator [c] can answer it. *)
Definition answer_of {S : Type} (c : collaborator S) (ev : event) : Prop :=
  exists (X : Type) (e : quizE X) (s : S), ev = event_of e (answer c e s).1.

(** The insert of questions, the only call that writes any. *)
Definition is_insert (ev : event) : bool :=
  match ev with EvInsertQuestions _ _ => true | _ => false end.

(** What the [catch] block adds to the trace of the [try] block. *)
Definition closing (ex : exit unit) : list event :=
  match ex with
  | Returned _ => []
  | Escaped e => [EvResJson (internal_error e)]
  end.

(** Ten entries, the last without [correct_answer]; and nine entries. *)
Definition incomplete_output : jsstring :=
  json_array (replicate 9 sample_question ++ [sample_incomplete]).

Definition nine_questions : jsstring := json_array (replicate 9 sample_question).

(** The second phase in the fault-free world, when questions are stored
    and when they are generated. *)
Definition hit_trace (q : quiz_id) (st : store) : list event :=
  [EvSelectQuestionIds q (select_question_ids q st);
   EvSelectQuestions q (select_questions q st);
   EvResJson (questions_response
                (Some (merge_sort by_question_order (questions_of q st))))].

Definition generate_trace (d : jsstring) (q : quiz_id) (w : world)
    (m : model_result) (rows : list new_question) : list event :=
  let st := insert_questions rows (db w) in
  [EvSelectQuestionIds q (select_question_ids q (db w));
   EvChatCompletion (prompt_of d) m;
   EvInsertQuestions rows None;
   EvSelectQuestions q (select_questions q st);
   EvResJson (questions_response
                (Some (merge_sort by_question_order (questions_of q st))))].

Definition generated (w : world) (rows : list new_question) : world :=
  with_db (count_model_call w) (insert_questions rows (db w)).

(** The parsed entries of [ten_questions]. *)
Definition sample_entries : list json :=
  match JSON_parse ten_questions with
  | Some (JArray items) => items
  | _ => []
  end.


(** [text] on a line of its own between a fence with [tag] and a closing
    fence. *)
Definition fenced (tag text : jsstring) : jsstring :=
  js "```" ++ tag ++ [0x0A] ++ text ++ [0x0A] ++ js "```".


(** ** Definitions for the further properties of the handler *)




(** The [TypeError] of [q.question] on a [null] entry. *)
Definition null_entry_error : js_error :=
  JsError (js "Cannot read properties of null (reading '" ++ js "question" ++ js "')").

Definition inserts_in (t : list event) : nat := length (List.filter is_insert t).

Definition rejecting_world : world :=
  {| db := empty_store;
     model := fun _ _ => Rejected (JsError (js "429 Too Many Requests"));
     model_calls := 0 |}.


(** The quiz row the handler asks the store to create for a domain. *)
Definition new_quiz_row (d : jsstring) (st : store) : quiz_row :=
  {| quiz_row_id := next_id st; quiz_domain := d; quiz_title := getDomainTitle d |}.

Definition is_quiz_insert (ev : event) : bool :=
  match ev with EvInsertQuiz _ _ _ => true | _ => false end.



(** The domains [getDomainTitle] has a title for. *)
Definition known_domains : list jsstring :=
  [js "web-development"; js "data-science"; js "backend"; js "ai-ml";
   js "networking"; js "algorithms"].

Definition calls_model {X : Type} (e : quizE X) : bool :=
  match e with
  | ChatCompletionsCreate _ => true
  | _ => false
  end.

(** A program that calls the model at most [n] times, whatever it is
    answered. *)
Fixpoint within_calls {A : Type} (n : nat) (p : prog A) : Prop :=
  match p with
  | Ret _ | Throw _ => True
  | Vis e k =>
      if calls_model e then
        match n with
        | O => False
        | S m => forall x, within_calls m (k x)
        end
      else forall x, within_calls n (k x)
  end.

(** The budgets of the threads: each has at most one model call left,
    and the calls made and the calls left do not exceed the requests. *)
Definition budgeted (w : world) (sys : system) (bs : list nat) : Prop :=
  Forall2 (fun b th => within_calls b (pending th)) bs (threads sys) /\
  (model_calls (env sys) + sum_list bs <= model_calls w + length (threads sys))%nat.

(** ** The page that takes the quiz

    The handlers of [pages/student/Quiz.tsx], as transitions of the
    state of the component once the quiz is loaded.  A handler reads the
    state of the render it was created in and the updates it requests
    make the state of the next render. *)

Module QuizPage.

(** [getDomainTitle] of the page. *)
Definition getDomainTitle (domainId : jsstring) : jsstring :=
  if decide (domainId = js "web-development") then js "Web Development Quiz"
  else if decide (domainId = js "data-science") then js "Data Science Quiz"
  else if decide (domainId = js "backend") then js "Backend Development Quiz"
  else if decide (domainId = js "ai-ml") then js "Artificial Intelligence Quiz"
  else if decide (domainId = js "networking") then js "Computer Networking Quiz"
  else if decide (domainId = js "algorithms") then js "Algorithms & Data Structures Quiz"
  else js "Skill Assessment Quiz".

(** What the page reads of a question: [correct_answer] and the keys of
    [options], which are the values of the radio items. *)
Record Question : Type := {
  correct_answer : jsstring;
  option_keys : list jsstring
}.

(** The row [submitQuizResults] asks the store to insert. *)
Record attempt : Type := {
  quiz_id : jsstring;
  student_id : jsstring;
  attempt_score : nat;
  max_score : nat
}.

(** The state of the component; [user] is the id of the signed-in user,
    [attempts] the rows sent to [quiz_attempts] so far. *)
Record state : Type := {
  questions : list Question;
  currentQuestion : nat;
  selectedAnswer : option jsstring;
  answers : gmap nat (list N);
  showResults : bool;
  score : nat;
  quizId : option jsstring;
  user : option jsstring;
  attempts : list attempt
}.

(** The state after [loadQuiz] has stored the quiz and its questions. *)
Definition loaded (qs : list Question) (quiz usr : option jsstring) : state :=
  {| questions := qs; currentQuestion := 0; selectedAnswer := None;
     answers := ∅; showResults := false; score := 0;
     quizId := quiz; user := usr; attempts := [] |}.

(** [handleAnswerSelect] *)
Definition handleAnswerSelect (answer : jsstring) (p : state) : state :=
  {| questions := questions p; currentQuestion := currentQuestion p;
     selectedAnswer := Some answer;
     answers := answers p; showResults := showResults p; score := score p;
     quizId := quizId p; user := user p; attempts := attempts p |}.

(** The loop of [handleNext]: the questions from index [i] on whose
    recorded answer is the correct one. *)
Fixpoint count_correct (recorded : gmap nat (list N)) (i : nat)
    (qs : list Question) : nat :=
  match qs with
  | [] => 0
  | q :: rest =>
      (if decide (recorded !! i = Some (correct_answer q)) then 1 else 0)
      + count_correct recorded (S i) rest
  end.

(** [submitQuizResults]: nothing when [quizId] is [null] or empty or
    nobody is signed in, otherwise the insert of the attempt. *)
Definition submitQuizResults (finalScore : nat) (p : state) : list attempt :=
  match quizId p, user p with
  | Some (c :: quiz), Some usr =>
      [{| quiz_id := c :: quiz; student_id := usr;
          attempt_score := finalScore; max_score := length (questions p) |}]
  | _, _ => []
  end.

(** [handleNext]; [None] is the [TypeError] of reading [correct_answer]
    of a question that does not exist. *)
Definition handleNext (p : state) : option state :=
  match selectedAnswer p with
  | None => Some p
  | Some selected =>
      let recorded := <[currentQuestion p := selected]> (answers p) in
      if decide (S (currentQuestion p) < length (questions p))%nat then
        Some {| questions := questions p;
                currentQuestion := S (currentQuestion p);
                selectedAnswer := None;
                answers := recorded;
                showResults := showResults p; score := score p;
                quizId := quizId p; user := user p; attempts := attempts p |}
      else
        let newScore := count_correct (answers p) 0 (questions p) in
        match questions p !! currentQuestion p with
        | None => None
        | Some q =>
            let finalScore :=
              if decide (selected = correct_answer q) then S newScore
              else newScore in
            Some {| questions := questions p;
                    currentQuestion := currentQuestion p;
                    selectedAnswer := selectedAnswer p;
                    answers := recorded;
                    showResults := true; score := finalScore;
                    quizId := quizId p; user := user p;
                    attempts := attempts p ++ submitQuizResults finalScore p |}
        end
  end.

(** [answers[i] || null]: a missing or empty answer is [null]. *)
Definition recorded_or_null (recorded : gmap nat (list N)) (i : nat)
  : option jsstring :=
  match recorded !! i with
  | Some (c :: s) => Some (c :: s)
  | _ => None
  end.

(** [handlePrevious] *)
Definition handlePrevious (p : state) : state :=
  match currentQuestion p with
  | O => p
  | S i =>
      {| questions := questions p; currentQuestion := i;
         selectedAnswer := recorded_or_null (answers p) i;
         answers := answers p; showResults := showResults p; score := score p;
         quizId := quizId p; user := user p; attempts := attempts p |}
  end.

(** What the rendered page lets the user do: pick one of the options of
    the current question; go on when an answer is selected; go back
    unless on the first question; none of these once the results show. *)
Inductive ui_step : state -> state -> Prop :=
| ui_select p q answer :
    showResults p = false ->
    questions p !! currentQuestion p = Some q ->
    answer ∈ option_keys q ->
    ui_step p (handleAnswerSelect answer p)
| ui_next p p' :
    showResults p = false ->
    selectedAnswer p ≠ None ->
    handleNext p = Some p' ->
    ui_step p p'
| ui_previous p :
    showResults p = false ->
    currentQuestion p ≠ 0%nat ->
    ui_step p (handlePrevious p).

(** What holds of the page while the questions show, and once the
    results do. *)
Definition asking (qs : list Question) (p : state) : Prop :=
  (currentQuestion p < length qs \/ (qs = [] /\ currentQuestion p = 0))%nat /\
  (selectedAnswer p ≠ None -> currentQuestion p < length qs)%nat /\
  (forall i, is_Some (answers p !! i) -> S i < length qs)%nat /\
  attempts p = [].

Definition scored (qs : list Question) (p : state) : Prop :=
  qs ≠ [] /\
  score p = count_correct (answers p) 0 qs /\
  attempts p = submitQuizResults (score p) p.

Definition consistent (qs : list Question) (p : state) : Prop :=
  questions p = qs /\
  if showResults p then scored qs p else asking qs p.

(** The page after a click on the button that goes on. *)
Definition next (p : state) : state := default p (handleNext p).

(** Two questions, both with the correct answer A; the user answers B,
    selects A, goes back and answers A, then answers A and submits. *)
Definition two_questions : list Question :=
  [ {| correct_answer := js "A"; option_keys := [js "A"; js "B"] |};
    {| correct_answer := js "A"; option_keys := [js "A"; js "B"] |} ].

Definition second_question : state :=
  handleAnswerSelect (js "A")
    (next (handleAnswerSelect (js "B")
       (loaded two_questions (Some (js "quiz-1")) (Some (js "user-1"))))).

Definition results : state :=
  next (handleAnswerSelect (js "A")
    (next (handleAnswerSelect (js "A") (handlePrevious second_question)))).

End QuizPage.

(** * Proofs *)

Arguments is_lookup_failure : simpl never.
Arguments has_questions : simpl never.
Arguments parse_quiz_questions : simpl never.
Arguments questionsToInsert : simpl never.
Arguments trim : simpl never.
Arguments clean_response : simpl never.
Arguments prompt_of : simpl never.
Arguments getDomainTitle : simpl never.
Arguments js : simpl never.
Arguments jsq : simpl never.
Arguments new_error : simpl never.
Arguments resolve_quiz : simpl never.
Arguments use_completion : simpl never.
Arguments answer_questions : simpl never.
Arguments quiz_flow : simpl never.
Arguments merge_sort : simpl never.

(** ** Tactics *)

Ltac answer_step :=
  match goal with
  | |- context [answer ?c ?e ?s] =>
      let x := fresh "r" in
      let s' := fresh "s" in
      destruct (answer c e s) as [x s']; simpl;
      try match type of x with unit => destruct x end
  end.

(** Decides membership of an event in an explicit list. *)
Ltac absent :=
  let Hin := fresh "Hin" in
  intros Hin;
  repeat (apply elem_of_cons in Hin as [Hin|Hin]; [discriminate Hin|]);
  by apply elem_of_nil in Hin.

Ltac no_rows_written :=
  right; unfold state_of, exit_of, trace_of; cbn [fst snd];
  repeat split; try done; intros; discriminate.

(** ** Runs of composed programs *)

Lemma run_bind {S A B : Type} (c : collaborator S) (p : prog A) (k : A -> prog B) s :
  run c (bind p k) s =
  match exit_of (run c p s) with
  | Returned a =>
      let o := run c (k a) (state_of (run c p s)) in
      (trace_of (run c p s) ++ trace_of o, exit_of o, state_of o)
  | Escaped e => (trace_of (run c p s), Escaped e, state_of (run c p s))
  end.
Proof.
  revert s. induction p as [a|e|X e h IH]; intros s; simpl.
  - by destruct (run c (k a) s) as [[t ex] s'].
  - done.
  - destruct (answer c e s) as [x s1]. rewrite IH.
    destruct (run c (h x) s1) as [[t ex] s2]; simpl.
    unfold exit_of, trace_of, state_of; simpl.
    by destruct ex.
Qed.

Lemma run_try_catch {S A : Type} (c : collaborator S) (p : prog A) h s :
  run c (try_catch p h) s =
  match exit_of (run c p s) with
  | Returned a => run c p s
  | Escaped e =>
      let o := run c (h e) (state_of (run c p s)) in
      (trace_of (run c p s) ++ trace_of o, exit_of o, state_of o)
  end.
Proof.
  revert s. induction p as [a|e|X e k IH]; intros s; simpl.
  - done.
  - by destruct (run c (h e) s) as [[t ex] s'].
  - destruct (answer c e s) as [x s1]. rewrite IH.
    destruct (run c (k x) s1) as [[t ex] s2]; simpl.
    unfold exit_of, trace_of, state_of; simpl.
    by destruct ex.
Qed.

(** ** Every run of the handler follows one of its paths *)

Lemma lookup_failure_inv (o : option pg_error) :
  is_lookup_failure o = true ->
  exists e, o = Some e /\ code e ≠ PGRST116.
Proof.
  destruct o as [e|]; simpl; [|done].
  intros H%bool_decide_eq_true. eauto.
Qed.

Lemma run_resolve_quiz {S : Type} (c : collaborator S) d s :
  resolved d (trace_of (run c (resolve_quiz d) s))
             (exit_of (run c (resolve_quiz d) s)).
Proof.
  unfold resolve_quiz; simpl. answer_step.
  destruct (is_lookup_failure (error r)) eqn:Hf; simpl.
  { apply lookup_failure_inv in Hf as (e & He & Hc). rewrite He; simpl.
    by apply lookup_failed. }
  destruct (data r) as [q|] eqn:Hq; simpl.
  { by apply quiz_found. }
  answer_step.
  destruct (error r0) as [e|] eqn:He; simpl.
  { by apply create_failed. }
  destruct (data r0) as [q|] eqn:Hq'; simpl.
  - by apply quiz_created.
  - by apply create_null.
Qed.

Lemma run_use_completion {S : Type} (c : collaborator S) q m s :
  generation q m (trace_of (run c (use_completion q m) s))
                 (exit_of (run c (use_completion q m) s)).
Proof.
  unfold use_completion.
  destruct m as [[content|]|e]; simpl; [| apply model_no_content | apply model_rejected].
  destruct (trim content) as [|ch raw] eqn:Ht; simpl.
  { by apply model_blank. }
  assert (Hne : trim content ≠ []) by (by rewrite Ht).
  rewrite <- Ht.
  destruct (parse_quiz_questions (clean_response (trim content))) as [qs|] eqn:Hp; simpl.
  2:{ answer_step. by apply format_rejected. }
  destruct (questionsToInsert q qs) as [e|rows] eqn:Hi; simpl.
  { by eapply map_threw. }
  answer_step. destruct r as [e|]; simpl.
  { by eapply insert_failed. }
  answer_step. destruct (error r) as [e|] eqn:He; simpl.
  - by eapply reread_failed.
  - answer_step. by eapply reread_returned.
Qed.

Lemma run_answer_questions {S : Type} (c : collaborator S) d q s :
  answered d q (trace_of (run c (answer_questions d q) s))
               (exit_of (run c (answer_questions d q) s)).
Proof.
  unfold answer_questions; simpl. answer_step.
  destruct (error r) as [e|] eqn:He; simpl.
  { by apply check_failed. }
  destruct (has_questions (data r)) eqn:Hh; simpl.
  - answer_step. destruct (error r0) as [e|] eqn:He'; simpl.
    + by apply fetch_failed.
    + answer_step. by apply cache_hit.
  - answer_step.
    pose proof (run_use_completion c q r0 s1) as Hg.
    destruct (run c (use_completion q r0) s1) as [[t ex] s2]; simpl in *.
    unfold exit_of, trace_of in *; simpl in *. by apply cache_miss.
Qed.

Lemma run_quiz_flow {S : Type} (c : collaborator S) d s :
  tried d (trace_of (run c (quiz_flow d) s)) (exit_of (run c (quiz_flow d) s)).
Proof.
  unfold quiz_flow. rewrite run_bind.
  pose proof (run_resolve_quiz c d s) as Hr.
  destruct (run c (resolve_quiz d) s) as [[t1 ex1] s1].
  unfold exit_of, trace_of, state_of in *; cbn [fst snd] in *.
  destruct ex1 as [q|e]; cbn [fst snd].
  - pose proof (run_answer_questions c d q s1) as Ha.
    destruct (run c (answer_questions d q) s1) as [[t2 ex2] s2].
    unfold exit_of, trace_of in Ha; cbn [fst snd] in *.
    by eapply tried_resolved.
  - by apply tried_unresolved.
Qed.

Lemma handler_paths {S : Type} (c : collaborator S) d s :
  d ≠ [] ->
  handled d (trace_of (run c (generateQuizHandler (domain_request d)) s)) /\
  exit_of (run c (generateQuizHandler (domain_request d)) s) = Returned tt.
Proof.
  intros Hd. destruct d as [|ch d]; [done|].
  unfold generateQuizHandler; cbn [query_domain domain_request].
  rewrite run_try_catch.
  pose proof (run_quiz_flow c (ch :: d) s) as Ht.
  destruct (run c (quiz_flow (ch :: d)) s) as [[t ex] s1].
  unfold exit_of, trace_of, state_of in *; cbn [fst snd] in *.
  destruct ex as [[]|e]; cbn [fst snd].
  - split; [by apply handled_returned | done].
  - simpl. answer_step. split; [by apply handled_caught | done].
Qed.

(** ** What a trace shows *)

Lemma run_vis {S A X : Type} (c : collaborator S) (e : quizE X) (k : X -> prog A) s :
  run c (Vis e k) s =
  let a := answer c e s in
  let o := run c (k a.1) a.2 in
  (event_of e a.1 :: trace_of o, exit_of o, state_of o).
Proof.
  simpl. destruct (answer c e s) as [x s1]; simpl.
  by destruct (run c (k x) s1) as [[t ex] s2].
Qed.

Lemma trace_vis {S A X : Type} (c : collaborator S) (e : quizE X) (k : X -> prog A) s :
  trace_of (run c (Vis e k) s) =
  event_of e (answer c e s).1 ::
    trace_of (run c (k (answer c e s).1) (answer c e s).2).
Proof. by rewrite run_vis. Qed.

Lemma exit_vis {S A X : Type} (c : collaborator S) (e : quizE X) (k : X -> prog A) s :
  exit_of (run c (Vis e k) s) =
  exit_of (run c (k (answer c e s).1) (answer c e s).2).
Proof. by rewrite run_vis. Qed.

Lemma state_vis {S A X : Type} (c : collaborator S) (e : quizE X) (k : X -> prog A) s :
  state_of (run c (Vis e k) s) =
  state_of (run c (k (answer c e s).1) (answer c e s).2).
Proof. by rewrite run_vis. Qed.

Lemma run_events {S A : Type} (c : collaborator S) (p : prog A) s :
  Forall (answer_of c) (trace_of (run c p s)).
Proof.
  revert s. induction p as [a|e|X e k IH]; intros s.
  - constructor.
  - constructor.
  - rewrite trace_vis. constructor; [|apply IH]. by exists X, e, s.
Qed.

Lemma shaped_select {S : Type} (c : collaborator S) q r :
  shaped c -> answer_of c (EvSelectQuestions q r) ->
  error r = None -> is_Some (data r).
Proof.
  intros Hc (X & e & s & Hev) Hr.
  specialize (Hc X e s). destruct e; simpl in Hev; try discriminate.
  injection Hev as -> ->. by apply Hc.
Qed.

Lemma responses_app t1 t2 : responses (t1 ++ t2) = responses t1 ++ responses t2.
Proof. apply omap_app. Qed.

Lemma model_calls_app t1 t2 :
  model_calls_in (t1 ++ t2) = (model_calls_in t1 + model_calls_in t2)%nat.
Proof. unfold model_calls_in. by rewrite List.filter_app, length_app. Qed.

Lemma resolved_silent d t ex :
  resolved d t ex -> responses t = [] /\ model_calls_in t = 0%nat.
Proof. by destruct 1. Qed.

Lemma generation_returned q m t :
  generation q m t (Returned tt) ->
  exists t' r, t = t' ++ [EvResJson r] /\ responses t' = [].
Proof.
  inversion 1; subst.
  - by exists [], format_error.
  - by eexists [_; _], _.
Qed.

Lemma generation_escaped q m t e :
  generation q m t (Escaped e) -> responses t = [].
Proof. by inversion 1. Qed.

Lemma answered_returned d q t :
  answered d q t (Returned tt) ->
  exists t' r, t = t' ++ [EvResJson r] /\ responses t' = [].
Proof.
  inversion 1 as [| |r r' ? ? ?|r m t0 ex ? ? Hg]; subst.
  - by eexists [_; _], _.
  - apply generation_returned in Hg as (t' & r0 & -> & Hr).
    by eexists (_ :: _ :: t'), _.
Qed.

Lemma answered_escaped d q t e :
  answered d q t (Escaped e) -> responses t = [].
Proof.
  inversion 1 as [| | |r m t0 ex ? ? Hg]; subst; try done.
  by apply generation_escaped in Hg.
Qed.

(** Every path ends with the one response it sends. *)
Lemma handled_response d t :
  handled d t ->
  exists t' r, t = t' ++ [EvResJson r] /\ responses t' = [].
Proof.
  destruct 1 as [t Ht|t e Ht].
  - inversion Ht as [|t1 t2 q ex Hr Ha]; subst.
    apply answered_returned in Ha as (t' & r & -> & Hs).
    exists (t1 ++ t'), r. rewrite app_assoc, responses_app, Hs.
    by destruct (resolved_silent _ _ _ Hr) as [-> _].
  - exists t, (internal_error e). split; [done|].
    inversion Ht as [? ? Hr|t1 t2 q ex Hr Ha]; subst.
    + by destruct (resolved_silent _ _ _ Hr).
    + rewrite responses_app. apply answered_escaped in Ha as ->.
      by destruct (resolved_silent _ _ _ Hr) as [-> _].
Qed.


(** The guard sends every request without a non-empty string domain
    away, the others go through the [try] block. *)
Lemma handler_cases (req : request) :
  generateQuizHandler req = call (ResJson bad_request) \/
  exists d, d ≠ [] /\ generateQuizHandler req = generateQuizHandler (domain_request d).
Proof.
  unfold generateQuizHandler.
  destruct (query_domain req) as [|[|ch d]| |]; auto.
  right. by exists (ch :: d).
Qed.

(** ** The generation phase inside a path *)

Lemma resolved_no_model d t ex p m :
  resolved d t ex -> EvChatCompletion p m ∉ t.
Proof. destruct 1; absent. Qed.

Lemma resolved_no_insert d t ex : resolved d t ex -> forallb (negb ∘ is_insert) t = true.
Proof. by destruct 1. Qed.

Lemma generation_no_model q m t ex p m' :
  generation q m t ex -> EvChatCompletion p m' ∉ t.
Proof. destruct 1; absent. Qed.

(** A path on which the model was called: the calls before it wrote no
    question, and what follows is the generation phase. *)
Lemma handled_model_call d t p m :
  handled d t -> EvChatCompletion p m ∈ t ->
  exists pre q tg ex,
    generation q m tg ex /\
    p = prompt_of d /\
    t = pre ++ EvChatCompletion p m :: tg ++ closing ex /\
    forallb (negb ∘ is_insert) pre = true /\
    responses pre = [] /\
    model_calls_in pre = 0%nat.
Proof.
  intros Hh Hin.
  assert (Htried : exists t0 ex, tried d t0 ex /\ t = t0 ++ closing ex).
  { destruct Hh as [t0 Ht|t0 e Ht].
    - exists t0, (Returned tt). by rewrite app_nil_r.
    - by exists t0, (Escaped e). }
  destruct Htried as (t0 & ex & Ht & ->).
  assert (Hin0 : EvChatCompletion p m ∈ t0).
  { apply elem_of_app in Hin as [?|Hc]; [done|].
    destruct ex; simpl in Hc; [by apply elem_of_nil in Hc|].
    by apply list_elem_of_singleton in Hc. }
  clear Hin Hh.
  inversion Ht as [? ? Hr|t1 t2 q ex' Hr Ha]; subst.
  { by apply (resolved_no_model _ _ _ p m) in Hr. }
  apply elem_of_app in Hin0 as [Hin0|Hin0].
  { by apply (resolved_no_model _ _ _ p m) in Hr. }
  inversion Ha as [| | |r m0 tg ex0 He Hq Hg]; subst;
    try (by revert Hin0; absent).
  apply elem_of_cons in Hin0 as [?|Hin0]; [done|].
  apply elem_of_cons in Hin0 as [Heq|Hin0].
  2:{ by apply (generation_no_model _ _ _ _ p m) in Hg. }
  injection Heq as -> ->.
  exists (t1 ++ [EvSelectQuestionIds q r]), q, tg, ex.
  split; [done|]. split; [done|].
  split; [by rewrite <- !app_assoc|].
  rewrite forallb_app, responses_app, model_calls_app.
  rewrite (resolved_no_insert _ _ _ Hr).
  by destruct (resolved_silent _ _ _ Hr) as [-> ->].
Qed.

Lemma parse_quiz_questions_Some cleaned qs :
  parse_quiz_questions cleaned = Some qs <->
  JSON_parse cleaned = Some (JArray qs) /\ length qs = 10%nat.
Proof.
  unfold parse_quiz_questions.
  destruct (JSON_parse cleaned) as [v|]; [|by split; [|intros [? _]]].
  destruct v; simpl; try (split; [done | by intros [[=] _]]).
  destruct (decide (length items = 10%nat)) as [Hl|Hl].
  - split; [by intros [= ->] | by intros [[= ->] _]].
  - split; [done | by intros [[= ->] ?]].
Qed.

Lemma parse_quiz_questions_None cleaned :
  parse_quiz_questions cleaned = None <-> bad_format cleaned.
Proof.
  unfold bad_format, parse_quiz_questions.
  destruct (JSON_parse cleaned) as [v|].
  2:{ split; [by left | done]. }
  destruct v; simpl;
    try (split; [intros _; right; left; eexists; split; [done|done] | done]).
  destruct (decide (length items = 10%nat)) as [Hl|Hl].
  - split; [done|]. intros [?|[(v & [= <-] & Hv)|(l & [= <-] & Hne)]]; try done.
    by destruct (Hv items).
  - split; [|done]. intros _. right; right. eauto.
Qed.

(** ** Fault-free runs and the store *)

Lemma exec_keeps_db {X : Type} (e : quizE X) w :
  is_store_write (event_of e (exec e w).1) = false ->
  db (exec e w).2 = db w.
Proof. by destruct e. Qed.

Lemma exec_keeps_questions {X : Type} (e : quizE X) w :
  is_insert (event_of e (exec e w).1) = false ->
  quiz_questions (db (exec e w).2) = quiz_questions (db w).
Proof.
  destruct e; simpl; try done.
  unfold insert_quiz. by destruct (quizzes_of _ _).
Qed.

Lemma fault_free_no_write {A : Type} (p : prog A) w :
  forallb (negb ∘ is_store_write) (trace_of (run fault_free p w)) = true ->
  db (state_of (run fault_free p w)) = db w.
Proof.
  revert w. induction p as [a|e|X e k IH]; intros w; [done..|].
  rewrite trace_vis, state_vis; cbn [forallb].
  intros [Hw Hrest]%andb_true_iff. rewrite IH by done.
  apply exec_keeps_db. by apply negb_true_iff in Hw.
Qed.

Lemma fault_free_no_insert {A : Type} (p : prog A) w :
  forallb (negb ∘ is_insert) (trace_of (run fault_free p w)) = true ->
  quiz_questions (db (state_of (run fault_free p w))) = quiz_questions (db w).
Proof.
  revert w. induction p as [a|e|X e k IH]; intros w; [done..|].
  rewrite trace_vis, state_vis; cbn [forallb].
  intros [Hw Hrest]%andb_true_iff. rewrite IH by done.
  apply exec_keeps_questions. by apply negb_true_iff in Hw.
Qed.

(** When a fault-free run ends with a select and the response, the
    select read the store as the run leaves it. *)
Lemma fault_free_last_select {A : Type} (p : prog A) w pre q res r :
  trace_of (run fault_free p w) = pre ++ [EvSelectQuestions q res; EvResJson r] ->
  res = select_questions q (db (state_of (run fault_free p w))).
Proof.
  revert w pre. induction p as [a|e|X e k IH]; intros w pre.
  - by destruct pre.
  - by destruct pre.
  - rewrite trace_vis, state_vis.
    destruct pre as [|ev pre]; simpl.
    + intros [= Hev Hrest].
      rewrite fault_free_no_write by (by rewrite Hrest).
      destruct e; simpl in *; try discriminate.
      by injection Hev as -> ->.
    + intros [= _ Hrest]. by apply IH in Hrest.
Qed.

Lemma model_call_in_trace t :
  model_calls_in t ≠ 0%nat -> exists p m, EvChatCompletion p m ∈ t.
Proof.
  induction t as [|ev t IH]; [done|].
  destruct ev; try (intros H; destruct (IH H) as (p & m & ?); exists p, m; by right).
  intros _. eexists _, _. by left.
Qed.

(** ** The rows prepared for insertion *)

Lemma map_from_rows q n qs rows :
  map_from q n qs = inr rows ->
  length rows = length qs /\
  quiz_id_ <$> rows = replicate (length qs) q /\
  question_order <$> rows = seq (n + 1) (length qs) /\
  forall i row, rows !! i = Some row ->
    exists x, qs !! i = Some x /\
      get_property x (js "question") = inr (question row) /\
      get_property x (js "options") = inr (options row) /\
      get_property x (js "correct_answer") = inr (correct_answer row).
Proof.
  revert n rows. induction qs as [|x qs IH]; intros n rows; simpl.
  { intros [= <-]. by repeat split. }
  unfold question_to_insert.
  destruct (get_property x (js "question")) as [?|qu] eqn:Hq; [done|].
  destruct (get_property x (js "options")) as [?|op] eqn:Ho; [done|].
  destruct (get_property x (js "correct_answer")) as [?|ca] eqn:Hc; [done|].
  destruct (map_from q (S n) qs) as [?|rows'] eqn:Hm; [done|].
  intros [= <-]. destruct (IH _ _ Hm) as (Hl & Hids & Hord & Hrows).
  rewrite !fmap_cons. cbn [length replicate seq quiz_id_ question_order].
  rewrite Hl, Hids. replace (S (n + 1)) with (S n + 1)%nat by lia.
  rewrite Hord. repeat split; try done.
  intros [|i] row Hi; simpl in *.
  - injection Hi as <-. by exists x.
  - by apply Hrows.
Qed.

Lemma questionsToInsert_batch q qs rows :
  length qs = 10%nat -> questionsToInsert q qs = inr rows -> batch rows.
Proof.
  intros Hl (_ & Hids & Hord & _)%map_from_rows.
  exists q. by rewrite Hids, Hord, Hl.
Qed.

(** ** The guard, the lookup and the error responses *)



Lemma answered_no_create d q t ex d' title r' :
  answered d q t ex -> EvInsertQuiz d' title r' ∉ t.
Proof.
  intros Ha. destruct Ha as [| | |r m tg exg He Hq Hg]; try absent.
  intros Hin.
  apply elem_of_cons in Hin as [Hin|Hin]; [discriminate Hin|].
  apply elem_of_cons in Hin as [Hin|Hin]; [discriminate Hin|].
  revert Hin. destruct Hg; absent.
Qed.

Lemma handler_first_event {S : Type} (c : collaborator S) d s :
  d ≠ [] ->
  exists t',
    trace_of (run c (generateQuizHandler (domain_request d)) s)
    = EvSelectQuizId d (answer c (SelectQuizId d) s).1 :: t'.
Proof.
  intros Hd. destruct d as [|ch d]; [done|].
  unfold generateQuizHandler; cbn [query_domain domain_request].
  unfold quiz_flow, resolve_quiz; cbn [bind call try_catch].
  rewrite trace_vis. by eexists.
Qed.

(** The run of the handler starts with the lookup, and goes on as the
    answer to the lookup decides. *)
Lemma handler_lookup {S : Type} (c : collaborator S) d s :
  d ≠ [] ->
  let r := (answer c (SelectQuizId d) s).1 in
  let t := trace_of (run c (generateQuizHandler (domain_request d)) s) in
  exists t1 ex1 rest,
    resolved d (EvSelectQuizId d r :: t1) ex1 /\
    t = EvSelectQuizId d r :: t1 ++ rest /\
    match ex1 with
    | Returned q =>
        exists r2 t2 ex, answered d q (EvSelectQuestionIds q r2 :: t2) ex /\
                         rest = EvSelectQuestionIds q r2 :: t2 ++ closing ex
    | Escaped e => rest = [EvResJson (internal_error e)]
    end.
Proof.
  intros Hd r t.
  destruct (handler_first_event c d s Hd) as [t' Hhead]. fold r t in Hhead.
  destruct (handler_paths c d s Hd) as [Hh _]. fold t in Hh.
  clearbody t r.
  assert (Hstart : forall t1 ex1, resolved d t1 ex1 ->
            exists r0 t1', t1 = EvSelectQuizId d r0 :: t1').
  { intros t1 ex1 Hr. destruct Hr; by eexists _, _. }
  assert (Hids : forall q t2 ex, answered d q t2 ex ->
            exists r2 t2', t2 = EvSelectQuestionIds q r2 :: t2').
  { intros q t2 ex Ha. destruct Ha; by eexists _, _. }
  revert Hhead. destruct Hh as [t0 Ht|t0 e Ht].
  - inversion Ht as [|t1 t2 q ex Hr Ha]; subst.
    destruct (Hstart _ _ Hr) as (r0 & t1' & ->).
    destruct (Hids _ _ _ Ha) as (r2 & t2' & ->).
    intros [= -> _].
    exists t1', (Returned q), (EvSelectQuestionIds q r2 :: t2').
    split; [done|]. split; [done|].
    exists r2, t2', (Returned tt). split; [done|]. by rewrite app_nil_r.
  - inversion Ht as [? ? Hr|t1 t2 q ex Hr Ha]; subst.
    + destruct (Hstart _ _ Hr) as (r0 & t1' & ->).
      intros [= -> _].
      by exists t1', (Escaped e), [EvResJson (internal_error e)].
    + destruct (Hstart _ _ Hr) as (r0 & t1' & ->).
      destruct (Hids _ _ _ Ha) as (r2 & t2' & ->).
      intros [= -> _].
      exists t1', (Returned q),
        (EvSelectQuestionIds q r2 :: t2' ++ [EvResJson (internal_error e)]).
      split; [done|]. split; [by rewrite <- !app_assoc|].
      by exists r2, t2', (Escaped e).
Qed.

(** C7.  On the lookup of the quiz, an error whose code is not
    [PGRST116] aborts the request: the run is the lookup followed by a
    500 whose detail is the store's message, and the model is not
    called.  A quiz is created exactly when the lookup is no such
    failure and gave no row, which for a store whose answers carry data
    or an error is exactly the code [PGRST116]; the creation then
    follows the lookup at once, with the derived title.  A quiz the
    lookup found is used as it is: the next call selects its
    questions. *)
Theorem lookup_failure_policy {S : Type} (c : collaborator S) (d : jsstring)
    (s : S) :
  d ≠ [] ->
  let r := (answer c (SelectQuizId d) s).1 in
  let t := trace_of (run c (generateQuizHandler (domain_request d)) s) in
  let absence :=
    (error r = None \/ exists e, error r = Some e /\ code e = PGRST116)
    /\ data r = None in
  (forall e, error r = Some e -> code e ≠ PGRST116 ->
     exists rsp,
       t = [EvSelectQuizId d r; EvResJson rsp] /\
       status rsp = 500%nat /\
       payload rsp = Message (js "Internal server error.")
                       (Some (js "Error checking quiz: " ++ message e)) /\
       model_calls_in t = 0%nat) /\
  ((exists d' title r', EvInsertQuiz d' title r' ∈ t) <-> absence) /\
  (shaped c ->
     ((exists d' title r', EvInsertQuiz d' title r' ∈ t) <->
      exists e, error r = Some e /\ code e = PGRST116 /\ data r = None)) /\
  (absence ->
     exists r' t',
       t = EvSelectQuizId d r :: EvInsertQuiz d (getDomainTitle d) r' :: t') /\
  (forall q, (forall e, error r = Some e -> code e = PGRST116) ->
     data r = Some q ->
     exists r2 t', t = EvSelectQuizId d r :: EvSelectQuestionIds q r2 :: t').
Proof.
  intros Hd r t absence.
  assert (Hshape : shaped c -> error r = None -> is_Some (data r)).
  { intros Hc. apply (Hc _ (SelectQuizId d) s). }
  destruct (handler_lookup c d s Hd) as (t1 & ex1 & rest & Hres & Ht & Hrest).
  fold r in Hres, Ht. fold t in Ht. clearbody t r.
  assert (Hfail : forall e, error r = Some e ->
            is_lookup_failure (error r) = false -> code e = PGRST116).
  { intros e He. rewrite He. unfold is_lookup_failure.
    intros Hf%bool_decide_eq_false. by destruct (decide (code e = PGRST116)). }
  assert (Habs : is_lookup_failure (error r) = false -> data r = None -> absence).
  { intros Hf Hdata. split; [|done].
    destruct (error r) as [e|] eqn:He; [right|by left].
    exists e. split; [done|]. by apply Hfail. }
  assert (Hnot : forall e, error r = Some e -> code e ≠ PGRST116 -> ~ absence).
  { intros e He Hc [[Hnone|(e' & He' & Hc')] _]; congruence. }
  assert (Hcreate : (exists d' title r', EvInsertQuiz d' title r' ∈ t) <-> absence).
  { subst t. inversion Hres as [? e He Hc|? q Hf Hq|? r' e Hf Hq He'
                               |? r' Hf Hq He' Hq'|? r' q Hf Hq He' Hq']; subst.
    - split.
      + intros (d' & title & r' & Hin). exfalso. subst rest.
        revert Hin. cbn [app]. absent.
      + intros Ha. by destruct (Hnot e He Hc).
    - destruct Hrest as (r2 & t2 & ex & Ha & ->). split.
      + intros (d' & title & r' & Hin). exfalso.
        apply elem_of_cons in Hin as [Hin|Hin]; [discriminate Hin|].
        cbn [app] in Hin. rewrite app_comm_cons in Hin.
        apply elem_of_app in Hin as [Hin|Hin].
        * by apply (answered_no_create _ _ _ _ d' title r') in Ha.
        * revert Hin. destruct ex; absent.
      + intros [_ Hnone]. congruence.
    - split; [intros _; by apply Habs|].
      intros _. exists d, (getDomainTitle d), r'. right. left.
    - split; [intros _; by apply Habs|].
      intros _. exists d, (getDomainTitle d), r'. right. left.
    - split; [intros _; by apply Habs|].
      intros _. exists d, (getDomainTitle d), r'. right. left. }
  split; [|split; [done|split; [|split]]].
  - intros e He Hc. subst t.
    inversion Hres as [? e0 He0 Hc0|? q Hf Hq|? r' e0 Hf Hq He'
                      |? r' Hf Hq He' Hq'|? r' q Hf Hq He' Hq']; subst;
      try (exfalso; apply (Hc (Hfail e He Hf))).
    assert (e0 = e) as -> by congruence. subst rest.
    eexists. split; [done|]. split; [done|]. split; done.
  - intros Hc. rewrite Hcreate. unfold absence. split.
    + intros [[Hnone|(e & He & Hcode)] Hdata]; [|by exists e].
      destruct (Hshape Hc Hnone) as [q Hq]. congruence.
    + intros (e & He & Hcode & Hdata). split; [right; by exists e|done].
  - intros Ha. subst t.
    inversion Hres as [? e He Hc|? q Hf Hq|? r' e Hf Hq He'
                      |? r' Hf Hq He' Hq'|? r' q Hf Hq He' Hq']; subst;
      try by eexists _, _.
    + by destruct (Hnot e He Hc).
    + destruct Ha as [_ Hnone]. congruence.
  - intros q Her Hq. subst t.
    inversion Hres as [? e He Hc|? q0 Hf Hq0|? r' e Hf Hq0 He'
                      |? r' Hf Hq0 He' Hq'|? r' q0 Hf Hq0 He' Hq']; subst;
      try congruence.
    + by destruct (Hc (Her e He)).
    + assert (q0 = q) as -> by congruence.
      destruct Hrest as (r2 & t2 & ex & _ & ->). by eexists _, _.
Qed.

Lemma lookup_failure_policy_witness :
  let d := js "algorithms" in
  let r := (answer (outage connection_refused) (SelectQuizId d) tt).1 in
  let t := trace_of (run (outage connection_refused)
                       (generateQuizHandler (domain_request d)) tt) in
  exists rsp,
    t = [EvSelectQuizId d r; EvResJson rsp] /\
    status rsp = 500%nat /\
    payload rsp = Message (js "Internal server error.")
                    (Some (js "Error checking quiz: " ++ message connection_refused)) /\
    model_calls_in t = 0%nat.
Proof.
  assert (Hd : js "algorithms" ≠ []) by (vm_compute; discriminate).
  apply (proj1 (lookup_failure_policy (outage connection_refused)
                  (js "algorithms") tt Hd) connection_refused).
  - reflexivity.
  - vm_compute. discriminate.
Defined.

(** C9.  The store is down and the lookup fails: the 500 body of the
    handler carries the internal error message.  The handler never reads
    [NODE_ENV]; the global error handler, which drops the detail in
    production, is not reached because the handler catches the error
    itself. *)
Theorem store_failure_detail_sent :
  responses (trace_of (run (outage connection_refused)
                         (generateQuizHandler (domain_request (js "algorithms"))) tt))
  = [{| status := 500;
        payload := Message (js "Internal server error.")
                     (Some (js "Error checking quiz: connection refused")) |}]
  /\ payload (globalErrorHandler (Some (js "production"))
               (JsError (js "Error checking quiz: connection refused")))
     = Message (js "Internal server error") None.
Proof. split; reflexivity. Qed.

(** C10.  Against every collaborator whose store answers are a success
    with data or a failure, and for every request, the handler ends
    without letting an exception escape and sends exactly one response,
    as its last action: a 400 with a message, a 500 with a message, or a
    200 with an array of questions. *)
Theorem handler_total {S : Type} (c : collaborator S) (req : request) (s : S) :
  shaped c ->
  let o := run c (generateQuizHandler req) s in
  exit_of o = Returned tt /\
  exists r,
    responses (trace_of o) = [r] /\
    last (trace_of o) = Some (EvResJson r) /\
    ((status r = 400%nat /\ exists m, payload r = Message m None)
     \/ (status r = 500%nat /\ exists m detail, payload r = Message m detail)
     \/ (status r = 200%nat /\ exists rows, payload r = Questions (Some rows))).
Proof.
  intros Hc o. subst o.
  destruct (handler_cases req) as [-> | (d & Hd & ->)].
  { unfold call. rewrite exit_vis, trace_vis; simpl.
    destruct (answer c _ _) as [[] s1]; simpl.
    split; [done|]. exists bad_request. repeat split; try done.
    left. split; [done|]. by eexists. }
  destruct (handler_paths c d s Hd) as [Hh Hex].
  pose proof (run_events c (generateQuizHandler (domain_request d)) s) as Hev.
  split; [done|].
  set (t := trace_of _) in *. clearbody t.
  assert (Hsel : forall q r, EvSelectQuestions q r ∈ t ->
            error r = None -> is_Some (data r)).
  { intros q r Hin. apply (shaped_select c q r Hc).
    by apply (proj1 (Forall_forall _ _) Hev). }
  destruct (handled_response d t Hh) as (t' & r & -> & Hr).
  exists r. rewrite responses_app, Hr, last_snoc.
  split; [done|]. split; [done|].
  clear Hr Hev Hex.
  inversion Hh as [t0 Ht Heq|t0 e Ht Heq].
  2:{ apply app_inj_tail in Heq as [_ [= <-]].
      right; left. split; [done|]. by eexists _, _. }
  subst t0. inversion Ht as [|t1 t2 q ex Hres Ha Heq]; subst.
  assert (Hsel2 : forall q' r', EvSelectQuestions q' r' ∈ t2 ->
            error r' = None -> is_Some (data r')).
  { intros q' r' Hin. apply (Hsel q' r'). rewrite <- Heq. apply elem_of_app. by right. }
  assert (Hlast : last t2 = Some (EvResJson r)).
  { apply (f_equal last) in Heq. rewrite last_snoc in Heq. rewrite <- Heq.
    destruct (answered_returned _ _ _ Ha) as (t3 & r3 & -> & _).
    by rewrite (app_assoc t1), !last_snoc. }
  clear Heq Hsel.
  inversion Ha as [| |r0 r' He Hq He'|r0 m tg ex He Hq Hg]; subst.
  - injection Hlast as <-. right; right. split; [done|].
    destruct (Hsel2 q r') as [rows Hrows]; [|done|].
    { right. by left. }
    exists rows. simpl. by rewrite Hrows.
  - inversion Hg as [| | |c0 Hne Hp| | | |c0 qs rows r' Hne Hp Hi He']; subst.
    + injection Hlast as <-. right; left. split; [done|]. by eexists _, _.
    + injection Hlast as <-. right; right. split; [done|].
      destruct (Hsel2 q r') as [rs Hrs]; [|done|].
      { do 3 right. by left. }
      exists rs. simpl. by rewrite Hrs.
Qed.

Lemma fault_free_shaped : shaped fault_free.
Proof.
  intros X e w. destruct e; simpl; try exact I; unfold shaped_result.
  - unfold select_quiz_id.
    destruct (quizzes_of _ _) as [|? [|? ?]]; simpl; intros; try discriminate; eauto.
  - unfold insert_quiz.
    destruct (quizzes_of _ _) as [|? ?]; simpl; intros; try discriminate; eauto.
  - simpl; eauto.
  - simpl; eauto.
Qed.

Lemma handler_total_witness :
  let o := run fault_free (generateQuizHandler (domain_request (js "algorithms")))
             (fresh_world ten_questions) in
  exit_of o = Returned tt /\
  exists r,
    responses (trace_of o) = [r] /\
    last (trace_of o) = Some (EvResJson r) /\
    ((status r = 400%nat /\ exists m, payload r = Message m None)
     \/ (status r = 500%nat /\ exists m detail, payload r = Message m detail)
     \/ (status r = 200%nat /\ exists rows, payload r = Questions (Some rows))).
Proof.
  apply (handler_total fault_free (domain_request (js "algorithms"))
           (fresh_world ten_questions)).
  exact fault_free_shaped.
Defined.

(** ** The model's output *)

(** C4, as stated, fails: the model returns ten entries of which the last
    has no [correct_answer]; the handler inserts the ten rows and answers
    200. *)
Lemma missing_field_accepted :
  let o := serve (domain_request (js "algorithms")) (fresh_world incomplete_output) in
  (exists qs q,
      JSON_parse (clean_response (trim incomplete_output)) = Some (JArray qs) /\
      length qs = 10%nat /\ qs !! 9%nat = Some q /\
      get_property q (js "correct_answer") = inr None) /\
  status <$> responses (trace_of o) = [200%nat] /\
  length (quiz_questions (db (state_of o))) = 10%nat.
Proof.
  split; [|split; vm_compute; reflexivity].
  eexists _, _. split; [vm_compute; reflexivity|].
  split; [reflexivity|]. split; [reflexivity|]. vm_compute; reflexivity.
Qed.


(** C5.  On every run that called the model and answered 200, the rows
    inserted are the ten parsed entries in order, each tied to the quiz
    and numbered by its position plus one, and the body of the response
    is the [data] of the select that follows the insert.  In the
    fault-free world that is the stored rows of the quiz, ordered by
    [question_order]. *)
Theorem generated_questions_reread (d : jsstring) :
  d ≠ [] ->
  (forall (S : Type) (c : collaborator S) (s : S) (r : response),
      let t := trace_of (run c (generateQuizHandler (domain_request d)) s) in
      model_calls_in t ≠ 0%nat -> responses t = [r] -> status r = 200%nat ->
      exists pre content q qs rows res,
        t = pre ++ [EvChatCompletion (prompt_of d) (Completion (Some content));
                    EvInsertQuestions rows None;
                    EvSelectQuestions q res;
                    EvResJson r] /\
        JSON_parse (clean_response (trim content)) = Some (JArray qs) /\
        length rows = 10%nat /\
        (forall i row, rows !! i = Some row ->
           quiz_id_ row = q /\ question_order row = (i + 1)%nat /\
           exists x, qs !! i = Some x /\
             get_property x (js "question") = inr (question row) /\
             get_property x (js "options") = inr (options row) /\
             get_property x (js "correct_answer") = inr (correct_answer row)) /\
        error res = None /\
        payload r = Questions (data res)) /\
  (forall (w : world) (r : response),
      let o := serve (domain_request d) w in
      model_calls_in (trace_of o) ≠ 0%nat ->
      responses (trace_of o) = [r] -> status r = 200%nat ->
      exists q,
        payload r = Questions
          (Some (merge_sort by_question_order (questions_of q (db (state_of o))))) /\
        Sorted by_question_order
          (merge_sort by_question_order (questions_of q (db (state_of o))))).
Proof.
  intros Hd.
  assert (Hgen : forall (S : Type) (c : collaborator S) (s : S) (r : response),
      let t := trace_of (run c (generateQuizHandler (domain_request d)) s) in
      model_calls_in t ≠ 0%nat -> responses t = [r] -> status r = 200%nat ->
      exists pre content q qs rows res,
        t = pre ++ [EvChatCompletion (prompt_of d) (Completion (Some content));
                    EvInsertQuestions rows None;
                    EvSelectQuestions q res;
                    EvResJson r] /\
        JSON_parse (clean_response (trim content)) = Some (JArray qs) /\
        length rows = 10%nat /\
        (forall i row, rows !! i = Some row ->
           quiz_id_ row = q /\ question_order row = (i + 1)%nat /\
           exists x, qs !! i = Some x /\
             get_property x (js "question") = inr (question row) /\
             get_property x (js "options") = inr (options row) /\
             get_property x (js "correct_answer") = inr (correct_answer row)) /\
        error res = None /\
        payload r = Questions (data res)).
  { intros S c s r t Hm Hr Hs. subst t.
    destruct (handler_paths c d s Hd) as [Hh _].
    destruct (model_call_in_trace _ Hm) as (p & m & Hin).
    destruct (handled_model_call d _ p m Hh Hin)
      as (pre & q & tg & ex & Hg & -> & Heq & _ & Hpre & _).
    rewrite Heq in Hr |- *. clear Heq Hin Hh Hm.
    rewrite responses_app, Hpre in Hr; simpl in Hr.
    inversion Hg as [| | | | | | |c0 qs rows res Hne Hp Hi He];
      subst; simpl in Hr; try (injection Hr as <-; discriminate Hs); try done.
    injection Hr as <-.
    apply parse_quiz_questions_Some in Hp as [Hp Hlen].
    pose proof (map_from_rows _ _ _ _ Hi) as (Hl & Hids & Hord & Hrows).
    exists pre, c0, q, qs, rows, res.
    split; [done|]. split; [done|]. split; [congruence|].
    split; [|done].
    intros i row Hi'. repeat split.
    - apply (f_equal (.!! i)) in Hids.
      rewrite list_lookup_fmap, Hi' in Hids; simpl in Hids.
      symmetry in Hids. apply lookup_replicate in Hids as [-> _]. done.
    - apply (f_equal (.!! i)) in Hord.
      rewrite list_lookup_fmap, Hi' in Hord; simpl in Hord.
      symmetry in Hord. apply lookup_seq in Hord as [-> _]. lia.
    - by apply Hrows. }
  split; [done|].
  intros w r o Hm Hr Hs. subst o. unfold serve in *.
  destruct (Hgen _ fault_free w r Hm Hr Hs)
    as (pre & content & q & qs & rows & res & Heq & _ & _ & _ & _ & Hp).
  exists q. rewrite Hp.
  replace (pre ++ [EvChatCompletion (prompt_of d) (Completion (Some content));
                   EvInsertQuestions rows None; EvSelectQuestions q res; EvResJson r])
    with ((pre ++ [EvChatCompletion (prompt_of d) (Completion (Some content));
                   EvInsertQuestions rows None]) ++
          [EvSelectQuestions q res; EvResJson r]) in Heq
    by (by rewrite <- app_assoc).
  apply fault_free_last_select in Heq as ->. split; [done|].
  apply Sorted_merge_sort. intros a b. unfold by_question_order. lia.
Qed.

Lemma generated_questions_reread_witness :
  let o := serve (domain_request (js "algorithms")) (fresh_world ten_questions) in
  let r := hd bad_request (responses (trace_of o)) in
  exists q,
    payload r = Questions
      (Some (merge_sort by_question_order (questions_of q (db (state_of o))))) /\
    Sorted by_question_order
      (merge_sort by_question_order (questions_of q (db (state_of o)))).
Proof.
  assert (Hd : js "algorithms" ≠ []) by (vm_compute; discriminate).
  apply (proj2 (generated_questions_reread (js "algorithms") Hd)
           (fresh_world ten_questions)).
  - vm_compute. discriminate.
  - vm_compute. reflexivity.
  - vm_compute. reflexivity.
Defined.

(** ** The handler in the fault-free world *)

Lemma serve_phases d w :
  d ≠ [] ->
  serve (domain_request d) w =
  let o1 := run fault_free (resolve_quiz d) w in
  match exit_of o1 with
  | Escaped e =>
      (trace_of o1 ++ [EvResJson (internal_error e)], Returned tt, state_of o1)
  | Returned q =>
      let o2 := run fault_free (answer_questions d q) (state_of o1) in
      match exit_of o2 with
      | Returned u => (trace_of o1 ++ trace_of o2, Returned u, state_of o2)
      | Escaped e =>
          ((trace_of o1 ++ trace_of o2) ++ [EvResJson (internal_error e)],
           Returned tt, state_of o2)
      end
  end.
Proof.
  intros Hd. destruct d as [|ch d]; [done|].
  unfold serve, generateQuizHandler; cbn [query_domain domain_request].
  rewrite run_try_catch. unfold quiz_flow. rewrite run_bind.
  destruct (run fault_free (resolve_quiz (ch :: d)) w) as [[t1 [q|e]] w1];
    unfold exit_of, trace_of, state_of; cbn [fst snd]; [|done].
  by destruct (run fault_free (answer_questions (ch :: d) q) w1) as [[t2 [u|e]] w2].
Qed.

(** The quiz of a domain the store has not seen is created, with the
    next identifier. *)
Lemma resolve_unseen d w :
  quizzes_of d (db w) = [] ->
  run fault_free (resolve_quiz d) w =
  ([EvSelectQuizId d (failed no_rows);
    EvInsertQuiz d (getDomainTitle d) (ok (next_id (db w)))],
   Returned (next_id (db w)),
   with_db w (insert_quiz d (getDomainTitle d) (db w)).2).
Proof.
  intros Hq. unfold resolve_quiz, call; simpl.
  unfold select_quiz_id; rewrite Hq; simpl.
  unfold insert_quiz; rewrite Hq. done.
Qed.

Lemma resolve_existing d w q0 :
  quizzes_of d (db w) = [q0] ->
  run fault_free (resolve_quiz d) w =
  ([EvSelectQuizId d (ok (quiz_row_id q0))], Returned (quiz_row_id q0), w).
Proof.
  intros Hq. unfold resolve_quiz, call; simpl.
  unfold select_quiz_id. by rewrite Hq.
Qed.

Lemma resolve_ambiguous d w q0 q1 qs :
  quizzes_of d (db w) = q0 :: q1 :: qs ->
  run fault_free (resolve_quiz d) w =
  ([EvSelectQuizId d (failed no_rows);
    EvInsertQuiz d (getDomainTitle d) (failed unique_violation)],
   Escaped (new_error "Error creating quiz: " unique_violation), w).
Proof.
  intros Hq. unfold resolve_quiz, call; simpl.
  unfold select_quiz_id; rewrite Hq; simpl.
  unfold insert_quiz; rewrite Hq; simpl. by destruct w.
Qed.

Lemma has_questions_ok (ids : list nat) :
  has_questions (Some ids) = bool_decide (ids ≠ []).
Proof. by destruct ids. Qed.

(** Stored questions are returned as they are, in order, and the world
    is left as it was. *)
Lemma answer_hit d q w :
  questions_of q (db w) ≠ [] ->
  run fault_free (answer_questions d q) w = (hit_trace q (db w), Returned tt, w).
Proof.
  intros Hq. unfold answer_questions, call; simpl.
  rewrite has_questions_ok.
  rewrite bool_decide_eq_true_2; [done|].
  by destruct (questions_of q (db w)).
Qed.

(** The ways the miss path ends in the fault-free world: the ten rows
    are generated and re-read, or no row is written and no 200 sent. *)
Lemma answer_miss d q w :
  questions_of q (db w) = [] ->
  let o := run fault_free (answer_questions d q) w in
  let m := model w (model_calls w) (prompt_of d) in
  (exists content qs rows,
      m = Completion (Some content) /\
      trim content ≠ [] /\
      parse_quiz_questions (clean_response (trim content)) = Some qs /\
      questionsToInsert q qs = inr rows /\
      o = (generate_trace d q w m rows, Returned tt, generated w rows))
  \/ (state_of o = count_model_call w /\
      (exit_of o = Returned tt -> responses (trace_of o) = [format_error]) /\
      (forall e, exit_of o = Escaped e -> responses (trace_of o) = [])).
Proof.
  intros Hq o m. subst o m. unfold answer_questions, call; simpl.
  rewrite has_questions_ok, Hq; simpl.
  unfold use_completion.
  destruct (model w (model_calls w) (prompt_of d)) as [[content|]|e]; simpl;
    [|no_rows_written..].
  destruct (trim content) as [|ch raw] eqn:Ht; simpl; [no_rows_written|].
  rewrite <- Ht.
  destruct (parse_quiz_questions (clean_response (trim content)))
    as [qs|] eqn:Hp; simpl; [|no_rows_written].
  destruct (questionsToInsert q qs) as [e|rows] eqn:Hi; simpl; [no_rows_written|].
  assert (Hne : trim content ≠ []) by (by rewrite Ht).
  left. by exists content, qs, rows.
Qed.

(** ** Inserting questions into the store *)

Lemma filter_all {A : Type} (P : A -> Prop) `{!forall x, Decision (P x)} (l : list A) :
  Forall P l -> filter P l = l.
Proof.
  induction 1 as [|x l Hx Hl IH]; [done|].
  by rewrite filter_cons, decide_True, IH.
Qed.

Lemma filter_none {A : Type} (P : A -> Prop) `{!forall x, Decision (P x)} (l : list A) :
  Forall (fun x => ¬ P x) l -> filter P l = [].
Proof.
  induction 1 as [|x l Hx Hl IH]; [done|].
  by rewrite filter_cons, decide_False, IH.
Qed.

Lemma stored_orders n q rows :
  row_question_order <$>
    (columns <$> filter (fun x => owner x = q)
                   (imap (fun i => store_question (n + i)) rows)) =
  question_order <$> filter (fun r => quiz_id_ r = q) rows.
Proof.
  revert n. induction rows as [|r rows IH]; intros n; [done|].
  cbn [imap]. rewrite !filter_cons.
  rewrite (imap_ext _ (fun i => store_question (S n + i))).
  2:{ intros i x _. simpl. f_equal. lia. }
  cbn [store_question owner].
  destruct (decide (quiz_id_ r = q)) as [Heq|Hne].
  - rewrite !fmap_cons. by rewrite IH.
  - apply IH.
Qed.

Lemma questions_of_insert q rows st :
  questions_of q (insert_questions rows st) =
  questions_of q st ++
  (columns <$> filter (fun x => owner x = q)
                 (imap (fun i => store_question (next_id st + i)) rows)).
Proof.
  unfold questions_of, insert_questions; cbn [quiz_questions].
  by rewrite filter_app, fmap_app.
Qed.

Lemma orders_of_insert q rows st :
  orders_of q (insert_questions rows st) =
  orders_of q st ++ (question_order <$> filter (fun r => quiz_id_ r = q) rows).
Proof.
  unfold orders_of. by rewrite questions_of_insert, fmap_app, stored_orders.
Qed.

Lemma batch_owner rows q :
  quiz_id_ <$> rows = replicate (length rows) q ->
  Forall (fun r => quiz_id_ r = q) rows.
Proof.
  induction rows as [|r rows IH]; [done|].
  rewrite fmap_cons; cbn [length replicate].
  intros [= Hr Hrest]. constructor; [done|by apply IH].
Qed.

(** A batch adds its ten orders to its own quiz and nothing to the
    others. *)
Lemma orders_of_insert_batch q q' rows st :
  quiz_id_ <$> rows = replicate 10 q' ->
  question_order <$> rows = seq 1 10 ->
  orders_of q (insert_questions rows st) =
  orders_of q st ++ (if decide (q = q') then seq 1 10 else []).
Proof.
  intros Hids Hord. rewrite orders_of_insert. f_equal.
  assert (Hlen : length rows = 10%nat).
  { apply (f_equal length) in Hids.
    by rewrite length_fmap, length_replicate in Hids. }
  rewrite <- Hlen in Hids. apply batch_owner in Hids.
  destruct (decide (q = q')) as [->|Hne].
  - by rewrite filter_all.
  - rewrite filter_none; [done|].
    eapply Forall_impl; [exact Hids|]. simpl. congruence.
Qed.

Lemma select_quiz_id_ok d st q :
  select_quiz_id d st = ok q ->
  exists q0, quizzes_of d st = [q0] /\ quiz_row_id q0 = q.
Proof.
  unfold select_quiz_id.
  destruct (quizzes_of d st) as [|q0 [|q1 l]]; try done.
  intros [= <-]. by exists q0.
Qed.

Lemma property_of_value (x : json) key :
  x ≠ JNull -> exists v, get_property x key = inr v.
Proof. destruct x; simpl; try done; by eexists. Qed.


(** ** Calls that follow one another *)

Lemma serve_after_resolve d w q t1 w1 :
  d ≠ [] ->
  run fault_free (resolve_quiz d) w = (t1, Returned q, w1) ->
  let o2 := run fault_free (answer_questions d q) w1 in
  serve (domain_request d) w =
  (t1 ++ trace_of o2 ++ closing (exit_of o2), Returned tt, state_of o2).
Proof.
  intros Hd Hr o2. subst o2. rewrite serve_phases by done. rewrite Hr.
  unfold exit_of at 1, trace_of at 1, state_of at 1; cbn [fst snd].
  unfold trace_of at 1, trace_of at 2, state_of at 1; cbn [fst snd].
  destruct (exit_of _) as [[]|e]; cbn [closing].
  - by rewrite app_nil_r.
  - by rewrite app_assoc.
Qed.

Lemma generated_questions q w qs rows :
  length qs = 10%nat -> questionsToInsert q qs = inr rows ->
  orders_of q (db (generated w rows)) = orders_of q (db w) ++ seq 1 10 /\
  length rows = 10%nat.
Proof.
  intros Hl Hi. pose proof (map_from_rows _ _ _ _ Hi) as (Hlen & Hids & Hord & _).
  rewrite Hl in *. split; [|done]. unfold generated; cbn [db with_db count_model_call].
  rewrite (orders_of_insert_batch q q rows) by done.
  by rewrite decide_True.
Qed.

Lemma orders_nonempty q st : orders_of q st ≠ [] -> questions_of q st ≠ [].
Proof. unfold orders_of. by destruct (questions_of q st). Qed.

(** A 200 on the second phase: the questions of the quiz are stored and
    they are what was sent. *)
Lemma answer_success d q w r :
  let o := run fault_free (answer_questions d q) w in
  responses (trace_of o ++ closing (exit_of o)) = [r] ->
  status r = 200%nat ->
  r = questions_response
        (Some (merge_sort by_question_order (questions_of q (db (state_of o))))) /\
  questions_of q (db (state_of o)) ≠ [] /\
  quizzes (db (state_of o)) = quizzes (db w).
Proof.
  intros o Hr Hs. subst o.
  destruct (decide (questions_of q (db w) = [])) as [Hq|Hq].
  - destruct (answer_miss d q w Hq)
      as [(content & qs & rows & Hm & Hne & Hp & Hi & Ho) | (Hst & Hret & Hesc)].
    + rewrite Ho in *. unfold trace_of, exit_of, state_of in *; cbn [fst snd] in *.
      apply parse_quiz_questions_Some in Hp as [_ Hl].
      destruct (generated_questions q w qs rows Hl Hi) as [Hord _].
      injection Hr as <-. split; [done|]. split; [|done].
      apply orders_nonempty. rewrite Hord. by destruct (orders_of q (db w)).
    + exfalso. rewrite responses_app in Hr.
      destruct (exit_of _) as [[]|e] eqn:Hex.
      * rewrite Hret in Hr by done. by injection Hr as <-.
      * rewrite (Hesc e) in Hr by done. by injection Hr as <-.
  - rewrite answer_hit in * by done.
    unfold trace_of, exit_of, state_of in *; cbn [fst snd] in *.
    by injection Hr as <-.
Qed.

Lemma quizzes_of_created d st :
  quizzes_of d st = [] ->
  select_quiz_id d (insert_quiz d (getDomainTitle d) st).2 = ok (next_id st).
Proof.
  intros Hq. unfold insert_quiz. rewrite Hq; cbn [snd].
  unfold select_quiz_id, quizzes_of in *; cbn [quizzes].
  rewrite filter_app, Hq, filter_cons, decide_True by done. done.
Qed.

Lemma select_quiz_id_quizzes d st st' :
  quizzes st' = quizzes st -> select_quiz_id d st' = select_quiz_id d st.
Proof. unfold select_quiz_id, quizzes_of. by intros ->. Qed.

Lemma responses_cons ev t :
  responses (ev :: t) =
  match ev with
  | EvResJson r => r :: responses t
  | _ => responses t
  end.
Proof. by destruct ev. Qed.

(** After a call that answered 200 the domain is cached. *)
Lemma serve_success d w r :
  d ≠ [] ->
  responses (trace_of (serve (domain_request d) w)) = [r] ->
  status r = 200%nat ->
  exists rows,
    r = questions_response (Some rows) /\
    cached d (state_of (serve (domain_request d) w)) rows.
Proof.
  intros Hd Hr Hs.
  destruct (quizzes_of d (db w)) as [|q0 [|q1 l]] eqn:Hq.
  - pose proof (serve_after_resolve d w _ _ _ Hd (resolve_unseen d w Hq)) as Heq.
    cbv zeta in Heq. rewrite Heq in Hr |- *. clear Heq.
    unfold trace_of at 1 in Hr; cbn [fst snd app] in Hr.
    unfold state_of at 1; cbn [fst snd].
    rewrite !responses_cons in Hr.
    destruct (answer_success d _ _ r Hr Hs) as (-> & Hne & Hqz).
    eexists. split; [done|]. exists (next_id (db w)).
    split; [|done].
    rewrite (select_quiz_id_quizzes _ _ _ Hqz). by apply quizzes_of_created.
  - pose proof (serve_after_resolve d w _ _ _ Hd (resolve_existing d w q0 Hq)) as Heq.
    cbv zeta in Heq. rewrite Heq in Hr |- *. clear Heq.
    unfold trace_of at 1 in Hr; cbn [fst snd app] in Hr.
    unfold state_of at 1; cbn [fst snd].
    rewrite !responses_cons in Hr.
    destruct (answer_success d _ _ r Hr Hs) as (-> & Hne & Hqz).
    eexists. split; [done|]. exists (quiz_row_id q0).
    split; [|done].
    rewrite (select_quiz_id_quizzes _ _ _ Hqz).
    unfold select_quiz_id. by rewrite Hq.
  - exfalso. rewrite serve_phases, (resolve_ambiguous d w q0 q1 l Hq) in Hr by done.
    unfold trace_of, exit_of in Hr; cbn [fst snd app] in Hr.
    rewrite !responses_cons in Hr. injection Hr as <-. discriminate Hs.
Qed.

(** A cached domain is served from the store. *)
Lemma serve_cached d w rows :
  d ≠ [] -> cached d w rows ->
  exists q,
    serve (domain_request d) w =
    (EvSelectQuizId d (ok q) :: hit_trace q (db w), Returned tt, w) /\
    rows = merge_sort by_question_order (questions_of q (db w)).
Proof.
  intros Hd (q & Hsel & Hne & ->). exists q. split; [|done].
  destruct (select_quiz_id_ok _ _ _ Hsel) as (q0 & Hq & <-).
  pose proof (serve_after_resolve d w _ _ _ Hd (resolve_existing d w q0 Hq)) as Heq.
  cbv zeta in Heq. rewrite Heq, answer_hit by done. done.
Qed.

Lemma serve_all_cached d w rows n :
  d ≠ [] -> cached d w rows ->
  serve_all (replicate n (domain_request d)) w =
  (replicate n (questions_response (Some rows)), w).
Proof.
  intros Hd Hc. induction n as [|n IH]; [done|].
  cbn [replicate serve_all].
  destruct (serve_cached d w rows Hd Hc) as (q & -> & ->).
  unfold state_of, trace_of; cbn [fst snd]. by rewrite IH.
Qed.

Lemma resolved_no_ids d t ex q r :
  resolved d t ex -> EvSelectQuestionIds q r ∉ t.
Proof. destruct 1; absent. Qed.

Lemma generation_no_ids q m t ex q' r :
  generation q m t ex -> EvSelectQuestionIds q' r ∉ t.
Proof. destruct 1; absent. Qed.

(** A path on which the test for stored questions succeeded: the model
    is not called, nothing is inserted, the ordered select follows and
    the one response carries its [data], or its error. *)
Lemma handled_hit d t q r :
  handled d t -> EvSelectQuestionIds q r ∈ t ->
  error r = None -> has_questions (data r) = true ->
  model_calls_in t = 0%nat /\
  forallb (negb ∘ is_insert) t = true /\
  exists pre res rsp,
    t = pre ++ [EvSelectQuestionIds q r; EvSelectQuestions q res; EvResJson rsp] /\
    responses t = [rsp] /\
    match error res with
    | None => status rsp = 200%nat /\ payload rsp = Questions (data res)
    | Some e =>
        status rsp = 500%nat /\
        payload rsp = Message (js "Internal server error.")
                        (Some (js "Error fetching questions: " ++ message e))
    end.
Proof.
  intros Hh Hin He Hq.
  assert (Htried : exists t0 ex, tried d t0 ex /\ t = t0 ++ closing ex).
  { destruct Hh as [t0 Ht|t0 e Ht].
    - exists t0, (Returned tt). by rewrite app_nil_r.
    - by exists t0, (Escaped e). }
  destruct Htried as (t0 & ex & Ht & ->).
  assert (Hin0 : EvSelectQuestionIds q r ∈ t0).
  { apply elem_of_app in Hin as [?|Hc]; [done|].
    destruct ex; simpl in Hc; [by apply elem_of_nil in Hc|].
    by apply list_elem_of_singleton in Hc. }
  clear Hin Hh.
  inversion Ht as [? ? Hr|t1 t2 q' ex' Hr Ha]; subst.
  { by apply (resolved_no_ids _ _ _ q r) in Hr. }
  apply elem_of_app in Hin0 as [Hin0|Hin0].
  { by apply (resolved_no_ids _ _ _ q r) in Hr. }
  destruct (resolved_silent _ _ _ Hr) as [Hr1 Hr2].
  pose proof (resolved_no_insert _ _ _ Hr) as Hr3.
  rewrite !model_calls_app, !forallb_app, !responses_app, Hr1, Hr2, Hr3.
  inversion Ha as [r0 e0 He0|r0 r' e0 He0 Hq0 He'|r0 r' He0 Hq0 He'
                   |r0 m tg ex0 He0 Hq0 Hg]; subst.
  - apply list_elem_of_singleton in Hin0 as [= -> ->]. congruence.
  - apply elem_of_cons in Hin0 as [[= -> ->]|Hin0]; [|by revert Hin0; absent].
    split; [done|]. split; [done|].
    exists t1, r', (internal_error (new_error "Error fetching questions: " e0)).
    split; [by rewrite <- app_assoc|]. split; [done|]. by rewrite He'.
  - apply elem_of_cons in Hin0 as [[= -> ->]|Hin0]; [|by revert Hin0; absent].
    split; [done|]. split; [done|].
    exists t1, r', (questions_response (data r')).
    split; [by rewrite app_nil_r|]. split; [done|]. by rewrite He'.
  - exfalso. apply elem_of_cons in Hin0 as [[= -> ->]|Hin0]; [congruence|].
    apply elem_of_cons in Hin0 as [?|Hin0]; [done|].
    by apply (generation_no_ids _ _ _ _ q r) in Hg.
Qed.

(** C3.  Against any collaborator, when the select of the identifiers
    reports at least one question for the quiz, the model is not called
    and nothing is inserted: the ordered select of that quiz follows and
    the one response is a 200 whose body is the [data] of that select
    (a 500 with the store's message when that select fails).  In the
    fault-free world the response is a 200 with the stored questions of
    the resolved quiz in ascending [question_order], and nothing
    changes.  After a first call that answered 200, that response
    carries the stored questions of the domain's quiz in ascending
    order, and any number of further calls for the domain get that same
    response and leave the world, its count of model calls included, as
    it was. *)
Theorem stored_questions_served (d : jsstring) :
  d ≠ [] ->
  (forall (S : Type) (c : collaborator S) (s : S) (q : quiz_id)
          (r : sb_result (list nat)),
      let t := trace_of (run c (generateQuizHandler (domain_request d)) s) in
      EvSelectQuestionIds q r ∈ t ->
      error r = None -> has_questions (data r) = true ->
      model_calls_in t = 0%nat /\
      forallb (negb ∘ is_insert) t = true /\
      exists pre res rsp,
        t = pre ++ [EvSelectQuestionIds q r; EvSelectQuestions q res;
                    EvResJson rsp] /\
        responses t = [rsp] /\
        match error res with
        | None => status rsp = 200%nat /\ payload rsp = Questions (data res)
        | Some e =>
            status rsp = 500%nat /\
            payload rsp = Message (js "Internal server error.")
                            (Some (js "Error fetching questions: " ++ message e))
        end) /\
  (forall (w : world) (q : quiz_id),
      let o1 := run fault_free (resolve_quiz d) w in
      let o := serve (domain_request d) w in
      let rows := merge_sort by_question_order (questions_of q (db (state_of o1))) in
      exit_of o1 = Returned q ->
      questions_of q (db (state_of o1)) ≠ [] ->
      (exists rsp,
          responses (trace_of o) = [rsp] /\
          status rsp = 200%nat /\ payload rsp = Questions (Some rows)) /\
      Sorted by_question_order rows /\
      rows ≡ₚ questions_of q (db (state_of o1)) /\
      model_calls_in (trace_of o) = 0%nat /\
      state_of o = state_of o1) /\
  (forall (w : world) (r : response),
      let w1 := state_of (serve (domain_request d) w) in
      responses (trace_of (serve (domain_request d) w)) = [r] ->
      status r = 200%nat ->
      (exists q rows,
          select_quiz_id d (db w1) = ok q /\
          rows ≠ [] /\
          Sorted by_question_order rows /\
          rows ≡ₚ questions_of q (db w1) /\
          payload r = Questions (Some rows)) /\
      forall n : nat,
        serve_all (replicate n (domain_request d)) w1 = (replicate n r, w1)).
Proof.
  intros Hd.
  assert (Hsorted : forall l, Sorted by_question_order (merge_sort by_question_order l)).
  { intros l. apply Sorted_merge_sort. intros a b. unfold by_question_order. lia. }
  split; [|split].
  - intros S c s q r t Hin He Hq. subst t.
    destruct (handler_paths c d s Hd) as [Hh _].
    by apply (handled_hit d _ q r).
  - intros w q o1 o rows Hex Hne. subst o rows o1.
    pose proof (run_resolve_quiz fault_free d w) as Hres.
    destruct (run fault_free (resolve_quiz d) w) as [[t1 ex1] w1] eqn:Ho1.
    unfold exit_of, state_of, trace_of in Hex, Hne, Hres; cbn [fst snd] in Hex, Hne, Hres.
    unfold state_of at 2 3 4; cbn [fst snd].
    subst ex1.
    pose proof (serve_after_resolve d w _ _ _ Hd Ho1) as Heq.
    cbv zeta in Heq. rewrite Heq, answer_hit by done.
    unfold trace_of, state_of; cbn [fst snd closing].
    rewrite app_nil_r, responses_app, model_calls_app.
    destruct (resolved_silent _ _ _ Hres) as [-> ->].
    split; [by eexists|]. split; [done|].
    split; [apply merge_sort_Permutation|]. done.
  - intros w r w1 Hr Hs. subst w1.
    destruct (serve_success d w r Hd Hr Hs) as (rows & -> & Hc).
    split; [|by intros n; apply serve_all_cached].
    destruct Hc as (q & Hsel & Hne & ->).
    exists q, (merge_sort by_question_order (questions_of q (db (state_of (serve (domain_request d) w))))).
    split; [done|]. split.
    { intros Hnil. apply Hne. apply Permutation_nil_r.
      rewrite <- Hnil. symmetry. apply merge_sort_Permutation. }
    split; [done|]. split; [apply merge_sort_Permutation|done].
Qed.

Lemma stored_questions_served_witness :
  let req := domain_request (js "algorithms") in
  let w1 := state_of (serve req (fresh_world ten_questions)) in
  let o1 := run fault_free (resolve_quiz (js "algorithms")) w1 in
  let o := serve req w1 in
  let rows := merge_sort by_question_order (questions_of 1 (db (state_of o1))) in
  (exists rsp,
      responses (trace_of o) = [rsp] /\
      status rsp = 200%nat /\ payload rsp = Questions (Some rows)) /\
  Sorted by_question_order rows /\
  rows ≡ₚ questions_of 1 (db (state_of o1)) /\
  model_calls_in (trace_of o) = 0%nat /\
  state_of o = state_of o1.
Proof.
  assert (Hd : js "algorithms" ≠ []) by (vm_compute; discriminate).
  apply (proj1 (proj2 (stored_questions_served (js "algorithms") Hd))
           (state_of (serve (domain_request (js "algorithms"))
                        (fresh_world ten_questions))) 1%nat).
  - vm_compute. reflexivity.
  - vm_compute. discriminate.
Defined.




(** ** Interleaved requests *)

Lemma exec_may_answer {X : Type} (e : quizE X) w :
  may_answer e w (exec e w).1 (exec e w).2.
Proof.
  destruct e; simpl; try done.
  - left. by destruct (insert_quiz _ _ _).
  - by left.
Qed.

Lemma advance_steps i sys : rtc step sys (advance i sys).
Proof.
  unfold advance.
  destruct (threads sys !! i) as [th|] eqn:Hth; [|done].
  destruct (pending th) as [| |X e k] eqn:Hp; [done..|].
  pose proof (exec_may_answer e (env sys)) as Hx.
  destruct (exec e (env sys)) as [x w'].
  apply rtc_once. by eapply step_call.
Qed.

Lemma schedule_steps order sys : rtc step sys (schedule order sys).
Proof.
  revert sys. induction order as [|i order IH]; intros sys; [done|].
  simpl. etrans; [apply advance_steps | apply IH].
Qed.

Lemma arrivals_steps reqs sys :
  rtc step sys {| env := env sys; threads := threads sys ++ (arrival <$> reqs) |}.
Proof.
  revert sys. induction reqs as [|req reqs IH]; intros sys.
  - rewrite app_nil_r. by destruct sys.
  - etrans; [apply rtc_once, (step_arrive _ req)|].
    etrans; [apply IH|]. simpl. by rewrite <- app_assoc.
Qed.

Lemma schedule_reachable order reqs w :
  reachable w (schedule order (arrivals reqs w)).
Proof.
  unfold reachable. etrans; [apply (arrivals_steps reqs)|]. apply schedule_steps.
Qed.



(** ** Questions come in batches *)











(** ** Code fences *)

Lemma trim_start_spaces ws s :
  Forall (fun c => is_js_space c = true) ws -> trim_start (ws ++ s) = trim_start s.
Proof. induction 1 as [|c ws Hc _ IH]; [done|]. simpl. by rewrite Hc. Qed.

Lemma trim_start_solid c s : is_js_space c = false -> trim_start (c :: s) = c :: s.
Proof. intros Hc. simpl. by rewrite Hc. Qed.

Lemma trim_end_spaces s ws :
  Forall (fun c => is_js_space c = true) ws -> trim_end (s ++ ws) = trim_end s.
Proof.
  intros Hws. unfold trim_end. rewrite rev_app_distr, trim_start_spaces; [done|].
  apply Forall_forall. intros c Hc%list_elem_of_In%in_rev%list_elem_of_In.
  by apply (proj1 (Forall_forall _ _) Hws).
Qed.

Lemma trim_end_solid s c : is_js_space c = false -> trim_end (s ++ [c]) = s ++ [c].
Proof.
  intros Hc. unfold trim_end. rewrite rev_unit, trim_start_solid by done.
  change (c :: rev s) with (rev [c] ++ rev s).
  by rewrite <- rev_app_distr, rev_involutive.
Qed.

Lemma match_prefix_ci_tag tag rest :
  match_prefix_ci (lower_ascii <$> tag) (tag ++ rest) = Some rest.
Proof.
  induction tag as [|c tag IH]; [done|].
  rewrite fmap_cons. cbn [match_prefix_ci app]. by rewrite N.eqb_refl.
Qed.

Lemma replace_trailing_fence_fenced s :
  replace_trailing_fence (s ++ js "```") = s.
Proof.
  unfold replace_trailing_fence.
  rewrite rev_app_distr.
  change (rev (js "```")) with [0x60; 0x60; 0x60].
  cbn [app]. by rewrite rev_involutive.
Qed.

(** The part of C6 that holds: a fence tagged [json], in any letter
    case, is removed with the white space inside it, whatever text that
    starts with a bracket and ends with one it encloses. *)
Lemma tagged_fence_stripped (tag ws1 mid ws2 : jsstring) :
  lower_ascii <$> tag = js "json" ->
  Forall (fun c => is_js_space c = true) ws1 ->
  Forall (fun c => is_js_space c = true) ws2 ->
  let text := 0x5B :: mid ++ [0x5D] in
  clean_response (trim (js "```" ++ tag ++ ws1 ++ text ++ ws2 ++ js "```")) = text.
Proof.
  intros Htag Hws1 Hws2 text.
  set (inner := ws1 ++ text ++ ws2).
  assert (Hraw : trim (js "```" ++ tag ++ ws1 ++ text ++ ws2 ++ js "```")
                 = js "```" ++ tag ++ inner ++ js "```").
  { unfold trim.
    change (js "```") with [0x60; 0x60; 0x60] at 1.
    cbn [app]. rewrite trim_start_solid by done.
    change (0x60 :: 0x60 :: 0x60 :: tag ++ ws1 ++ text ++ ws2 ++ js "```")
      with ([0x60; 0x60; 0x60] ++ tag ++ ws1 ++ text ++ ws2 ++ [0x60; 0x60] ++ [0x60]).
    rewrite !app_assoc. rewrite trim_end_solid by done.
    unfold inner. change (js "```") with ([0x60; 0x60] ++ [0x60]).
    by rewrite !app_assoc. }
  rewrite Hraw. unfold clean_response, replace_leading_fence.
  change (js "```json") with ([0x60; 0x60; 0x60] ++ js "json").
  change (js "```") with [0x60; 0x60; 0x60] at 1.
  cbn [app match_prefix_ci lower_ascii]. 
  change (lower_ascii 0x60 =? 0x60) with true. cbn iota.
  rewrite <- Htag, match_prefix_ci_tag.
  unfold inner. rewrite <- !app_assoc.
  rewrite (trim_start_spaces ws1) by done.
  unfold text at 1. rewrite <- app_comm_cons, trim_start_solid by done.
  rewrite app_comm_cons. fold text.
  rewrite (app_assoc text), replace_trailing_fence_fenced.
  unfold trim. unfold text at 1. rewrite <- app_comm_cons, trim_start_solid by done.
  rewrite app_comm_cons. fold text. rewrite trim_end_spaces by done.
  unfold text. rewrite app_comm_cons. by apply trim_end_solid.
Qed.

(** C6.  The model wraps its ten questions in a fence without a tag: the
    trailing fence is removed, the leading one is not, [JSON.parse]
    rejects the text and the request fails with the format error.  The
    same array in a fence tagged [json] is unwrapped. *)
Theorem untagged_fence_kept :
  let raw := fenced [] ten_questions in
  (exists items,
      JSON_parse ten_questions = Some (JArray items) /\ length items = 10%nat) /\
  clean_response (trim raw) = js "```" ++ [0x0A] ++ ten_questions /\
  JSON_parse (clean_response (trim raw)) = None /\
  responses (trace_of (serve (domain_request (js "algorithms")) (fresh_world raw)))
  = [format_error] /\
  clean_response (trim (fenced (js "json") ten_questions)) = ten_questions.
Proof.
  split.
  { exists sample_entries. split; vm_compute; reflexivity. }
  split; [vm_compute; reflexivity|].
  split; [vm_compute; reflexivity|].
  split; vm_compute; reflexivity.
Qed.

(** * Further properties of the handler *)

Lemma handler_domain_cases (req : request) :
  generateQuizHandler req = call (ResJson bad_request) \/
  exists d, d ≠ [] /\ query_domain req = QString d /\
            generateQuizHandler req = generateQuizHandler (domain_request d).
Proof.
  unfold generateQuizHandler.
  destruct (query_domain req) as [|[|ch d]| |]; auto.
  right. by exists (ch :: d).
Qed.

Lemma bad_request_trace {S : Type} (c : collaborator S) s :
  trace_of (run c (call (ResJson bad_request)) s) = [EvResJson bad_request].
Proof. unfold call. rewrite trace_vis. simpl. by destruct (answer c _ _) as [[] ?]. Qed.

Lemma elem_of_responses r t : EvResJson r ∈ t <-> r ∈ responses t.
Proof.
  unfold responses. rewrite list_elem_of_omap. split.
  - intros Hin. by exists (EvResJson r).
  - intros (ev & Hin & Hev). destruct ev; try done. by injection Hev as ->.
Qed.

Lemma generation_status q m t :
  generation q m t (Returned tt) ->
  exists t' r, t = t' ++ [EvResJson r] /\ responses t' = [] /\
               (status r = 200 \/ status r = 500)%nat.
Proof.
  inversion 1; subst.
  - exists [], format_error. auto.
  - eexists [_; _], _. split; [done|]. split; [done|]. by left.
Qed.

Lemma answered_status d q t :
  answered d q t (Returned tt) ->
  exists t' r, t = t' ++ [EvResJson r] /\ responses t' = [] /\
               (status r = 200 \/ status r = 500)%nat.
Proof.
  inversion 1 as [| |r r' ? ? ?|r m t0 ex ? ? Hg]; subst.
  - eexists [_; _], _. split; [done|]. split; [done|]. by left.
  - apply generation_status in Hg as (t' & r0 & -> & Hr & Hst).
    by eexists (_ :: _ :: t'), _.
Qed.

(** Every path ends with the one response it sends, a 200 or a 500. *)
Lemma handled_status d t :
  handled d t ->
  exists t' r, t = t' ++ [EvResJson r] /\ responses t' = [] /\
               (status r = 200 \/ status r = 500)%nat.
Proof.
  destruct 1 as [t Ht|t e Ht].
  - inversion Ht as [|t1 t2 q ex Hr Ha]; subst.
    apply answered_status in Ha as (t' & r & -> & Hs & Hst).
    exists (t1 ++ t'), r. rewrite app_assoc, responses_app, Hs.
    by destruct (resolved_silent _ _ _ Hr) as [-> _].
  - exists t, (internal_error e). split; [done|]. split; [|by right].
    inversion Ht as [? ? Hr|t1 t2 q ex Hr Ha]; subst.
    + by destruct (resolved_silent _ _ _ Hr).
    + rewrite responses_app. apply answered_escaped in Ha as ->.
      by destruct (resolved_silent _ _ _ Hr) as [-> _].
Qed.

(** X1.  Whatever the collaborators answer, the handler sends a 400
    exactly when [domain] is not a non-empty string (missing, empty, a
    repeated or a nested query parameter), and then that response is the
    only event of the run: neither the store nor the model is called. *)
Theorem bad_request_iff_no_domain {S : Type} (c : collaborator S)
    (req : request) (s : S) :
  let t := trace_of (run c (generateQuizHandler req) s) in
  ((exists r, EvResJson r ∈ t /\ status r = 400%nat) <->
   (forall d, query_domain req = QString d -> d = [])) /\
  ((exists r, EvResJson r ∈ t /\ status r = 400%nat) ->
   t = [EvResJson bad_request]).
Proof.
  intros t. subst t.
  destruct (handler_domain_cases req) as [Hbad | (d & Hd & Hq & Hreq)].
  - rewrite Hbad, bad_request_trace. split; [|done]. split.
    + intros _ d Hq. revert Hbad. unfold generateQuizHandler. rewrite Hq.
      by destruct d.
    + intros _. exists bad_request. split; [left|done].
  - rewrite Hreq. destruct (handler_paths c d s Hd) as [Hh _].
    destruct (handled_status _ _ Hh) as (t' & r0 & -> & Hsilent & Hst).
    assert (Hnone : ~ exists r, EvResJson r ∈ t' ++ [EvResJson r0]
                               /\ status r = 400%nat).
    { intros (r & Hin & H400).
      apply elem_of_app in Hin as [Hin|Hin].
      - apply elem_of_responses in Hin. rewrite Hsilent in Hin.
        by apply elem_of_nil in Hin.
      - apply list_elem_of_singleton in Hin. injection Hin as ->. lia. }
    split; [|by intros H400; destruct Hnone].
    split; [by intros H400; destruct Hnone|].
    intros Hall. by destruct Hd; apply Hall.
Qed.

Lemma inserts_app t1 t2 : inserts_in (t1 ++ t2) = (inserts_in t1 + inserts_in t2)%nat.
Proof. unfold inserts_in. by rewrite List.filter_app, length_app. Qed.

Lemma tried_of_handled d t :
  handled d t -> exists t0 ex, tried d t0 ex /\ t = t0 ++ closing ex.
Proof.
  destruct 1 as [t0 Ht|t0 e Ht].
  - exists t0, (Returned tt). by rewrite app_nil_r.
  - by exists t0, (Escaped e).
Qed.

Lemma closing_silent ex : model_calls_in (closing ex) = 0%nat /\ inserts_in (closing ex) = 0%nat.
Proof. by destruct ex. Qed.

Lemma resolved_no_inserts d t ex : resolved d t ex -> inserts_in t = 0%nat.
Proof. by destruct 1. Qed.

Lemma generation_counts q m t ex :
  generation q m t ex -> model_calls_in t = 0%nat /\ (inserts_in t <= 1)%nat.
Proof. destruct 1; unfold model_calls_in, inserts_in; simpl; split; lia. Qed.

Lemma answered_counts d q t ex :
  answered d q t ex -> (model_calls_in t <= 1)%nat /\ (inserts_in t <= 1)%nat.
Proof.
  intros Ha. destruct Ha as [| | |r m tg exg He Hq Hg];
    try (unfold model_calls_in, inserts_in; simpl; split; lia).
  destruct (generation_counts _ _ _ _ Hg) as [Hm Hi].
  unfold model_calls_in, inserts_in in *. simpl. lia.
Qed.

(** X2.  Whatever the collaborators answer, a request calls the model at
    most once and inserts questions at most once, and the prompt of the
    call is the one built from the request's domain. *)
Theorem model_called_at_most_once {S : Type} (c : collaborator S)
    (req : request) (s : S) :
  let t := trace_of (run c (generateQuizHandler req) s) in
  (model_calls_in t <= 1)%nat /\
  (inserts_in t <= 1)%nat /\
  forall p m, EvChatCompletion p m ∈ t ->
    exists d, query_domain req = QString d /\ p = prompt_of d.
Proof.
  intros t. subst t.
  destruct (handler_domain_cases req) as [-> | (d & Hd & Hq & ->)].
  { rewrite bad_request_trace. unfold model_calls_in, inserts_in.
    split; [simpl; lia|]. split; [simpl; lia|].
    intros p m. absent. }
  destruct (handler_paths c d s Hd) as [Hh _].
  set (t := trace_of _) in *. clearbody t.
  split; [|split].
  - destruct (tried_of_handled d t Hh) as (t0 & ex & Ht & ->).
    rewrite model_calls_app. destruct (closing_silent ex) as [-> _].
    inversion Ht as [? ? Hr|t1 t2 q ex' Hr Ha]; subst.
    + destruct (resolved_silent _ _ _ Hr) as [_ ->]. lia.
    + rewrite model_calls_app. destruct (resolved_silent _ _ _ Hr) as [_ ->].
      destruct (answered_counts _ _ _ _ Ha). lia.
  - destruct (tried_of_handled d t Hh) as (t0 & ex & Ht & ->).
    rewrite inserts_app. destruct (closing_silent ex) as [_ ->].
    inversion Ht as [? ? Hr|t1 t2 q ex' Hr Ha]; subst.
    + rewrite (resolved_no_inserts _ _ _ Hr). lia.
    + rewrite inserts_app, (resolved_no_inserts _ _ _ Hr).
      destruct (answered_counts _ _ _ _ Ha). lia.
  - intros p m Hin. exists d. split; [done|].
    by destruct (handled_model_call d t p m Hh Hin) as (? & ? & ? & ? & _ & -> & _).
Qed.

Lemma no_insert_absent t rows r :
  forallb (negb ∘ is_insert) t = true -> EvInsertQuestions rows r ∉ t.
Proof.
  intros Hf Hin%list_elem_of_In.
  by apply (proj1 (forallb_forall _ _) Hf) in Hin.
Qed.

(** The generation phase of a path, if it has one. *)
Lemma handled_phases d t :
  handled d t ->
  (exists pre q m tg ex,
      generation q m tg ex /\
      t = pre ++ EvChatCompletion (prompt_of d) m :: tg ++ closing ex /\
      forallb (negb ∘ is_insert) pre = true)
  \/ forallb (negb ∘ is_insert) t = true.
Proof.
  intros Hh. destruct (tried_of_handled d t Hh) as (t0 & ex & Ht & ->).
  assert (Hc : forallb (negb ∘ is_insert) (closing ex) = true) by (by destruct ex).
  inversion Ht as [? ? Hr|t1 t2 q ex' Hr Ha]; subst.
  { right. by rewrite forallb_app, (resolved_no_insert _ _ _ Hr). }
  pose proof (resolved_no_insert _ _ _ Hr) as Hr1.
  inversion Ha as [| | |r m tg exg He Hq Hg]; subst;
    try (right; by rewrite !forallb_app, Hr1, Hc).
  left. exists (t1 ++ [EvSelectQuestionIds q r]), q, m, tg, ex.
  split; [done|]. split; [by rewrite <- !app_assoc|].
  by rewrite forallb_app, Hr1.
Qed.

(** X3.  Whatever the collaborators answer, every insert of questions the
    handler issues is a batch: ten rows of one quiz, numbered 1 to 10 in
    order; and it comes right after a completion of the model, with no
    insert before it. *)
Theorem inserts_are_batches {S : Type} (c : collaborator S) (req : request)
    (s : S) (rows : list new_question) (r : option pg_error) :
  let t := trace_of (run c (generateQuizHandler req) s) in
  EvInsertQuestions rows r ∈ t ->
  batch rows /\
  exists pre post p content,
    t = pre ++ EvChatCompletion p (Completion (Some content))
            :: EvInsertQuestions rows r :: post /\
    forallb (negb ∘ is_insert) pre = true.
Proof.
  intros t Hin. subst t.
  destruct (handler_domain_cases req) as [Heq | (d & Hd & Hq & Heq)];
    rewrite Heq in *.
  { exfalso. rewrite bad_request_trace in Hin. revert Hin. absent. }
  destruct (handler_paths c d s Hd) as [Hh _].
  set (t := trace_of _) in *. clearbody t.
  destruct (handled_phases d t Hh)
    as [(pre & q & m & tg & ex & Hg & -> & Hpre) | Hnone].
  2:{ by apply (no_insert_absent _ rows r) in Hnone. }
  apply elem_of_app in Hin as [Hin|Hin].
  { by apply (no_insert_absent _ rows r) in Hpre. }
  apply elem_of_cons in Hin as [?|Hin]; [done|].
  assert (Hc : EvInsertQuestions rows r ∉ closing ex) by (destruct ex; absent).
  apply elem_of_app in Hin as [Hin|Hin]; [|done].
  inversion Hg as [| | | | |c0 qs rows0 e0 Hne Hp Hi
                   |c0 qs rows0 r0 e0 Hne Hp Hi He
                   |c0 qs rows0 r0 Hne Hp Hi He]; subst;
    try (by revert Hin; absent).
  - apply list_elem_of_singleton in Hin as [= -> ->].
    apply parse_quiz_questions_Some in Hp as [_ Hl].
    split; [by eapply questionsToInsert_batch|].
    by eexists pre, _, _, c0.
  - apply elem_of_cons in Hin as [[= -> ->]|Hin]; [|by revert Hin; absent].
    apply parse_quiz_questions_Some in Hp as [_ Hl].
    split; [by eapply questionsToInsert_batch|].
    by eexists pre, _, _, c0.
  - apply elem_of_cons in Hin as [[= -> ->]|Hin]; [|by revert Hin; absent].
    apply parse_quiz_questions_Some in Hp as [_ Hl].
    split; [by eapply questionsToInsert_batch|].
    by eexists pre, _, _, c0.
Qed.

Lemma inserts_are_batches_witness :
  batch (default [] (head (omap (fun ev => match ev with
                                           | EvInsertQuestions rows _ => Some rows
                                           | _ => None
                                           end)
       (trace_of (run fault_free
                    (generateQuizHandler (domain_request (js "algorithms")))
                    (fresh_world ten_questions)))))).
Proof.
  eapply (proj1 (inserts_are_batches fault_free
                   (domain_request (js "algorithms"))
                   (fresh_world ten_questions) _ None _)).
Unshelve.
  apply (list_elem_of_lookup_2 _ 4%nat). vm_compute. reflexivity.
Defined.



(** ** [null] entries *)

Lemma question_to_insert_null q i : question_to_insert q i JNull = inl null_entry_error.
Proof. reflexivity. Qed.

Lemma question_to_insert_value q i x :
  x ≠ JNull -> exists row, question_to_insert q i x = inr row.
Proof.
  intros Hx. unfold question_to_insert.
  destruct (property_of_value x (js "question") Hx) as [v1 ->].
  destruct (property_of_value x (js "options") Hx) as [v2 ->].
  destruct (property_of_value x (js "correct_answer") Hx) as [v3 ->].
  by eexists.
Qed.

Lemma map_from_throws q n qs e :
  map_from q n qs = inl e <-> JNull ∈ qs /\ e = null_entry_error.
Proof.
  revert n. induction qs as [|x qs IH]; intros n; simpl.
  { split; [done|]. intros [Hin _]. by apply elem_of_nil in Hin. }
  assert (Hcase : x = JNull \/ x ≠ JNull)
    by (destruct x; auto; right; discriminate).
  destruct Hcase as [->|Hx].
  - rewrite question_to_insert_null. split.
    + intros [= <-]. split; [by left|done].
    + by intros [_ ->].
  - destruct (question_to_insert_value q n x Hx) as [row ->].
    destruct (map_from q (S n) qs) as [e'|rows] eqn:Hm.
    + split.
      * intros [= <-]. destruct (proj1 (IH (S n)) Hm) as [Hin ->].
        split; [by right|done].
      * intros [Hin ->]. f_equal.
        apply elem_of_cons in Hin as [?|Hin]; [done|].
        assert (Hm' : map_from q (S n) qs = inl null_entry_error)
          by (by apply IH).
        congruence.
    + split; [done|]. intros [Hin ->].
      apply elem_of_cons in Hin as [?|Hin]; [done|].
      assert (Hm' : map_from q (S n) qs = inl null_entry_error)
        by (by apply IH).
      congruence.
Qed.

(** X5.  The mapping of the parsed entries to rows throws exactly when
    some entry is [null], and then with the [TypeError] of reading
    [question]; otherwise it yields one row per entry. *)
Theorem questionsToInsert_throws_on_null (q : quiz_id) (qs : list json) :
  (forall e, questionsToInsert q qs = inl e <->
             JNull ∈ qs /\ e = null_entry_error) /\
  (JNull ∉ qs ->
   exists rows, questionsToInsert q qs = inr rows /\ length rows = length qs).
Proof.
  split; [intros e; apply map_from_throws|].
  intros Hn. unfold questionsToInsert.
  destruct (map_from q 0 qs) as [e|rows] eqn:Hm.
  - apply map_from_throws in Hm as [Hin _]. done.
  - exists rows. split; [done|]. by apply map_from_rows in Hm as [-> _].
Qed.

Lemma questionsToInsert_throws_on_null_witness :
  exists rows,
    questionsToInsert 1 [JObject []; JString (js "x")] = inr rows /\
    length rows = 2%nat.
Proof.
  apply (proj2 (questionsToInsert_throws_on_null 1 [JObject []; JString (js "x")])).
  intros Hin. apply elem_of_cons in Hin as [Hin|Hin]; [discriminate Hin|].
  apply elem_of_cons in Hin as [Hin|Hin]; [discriminate Hin|].
  by apply elem_of_nil in Hin.
Defined.



(** ** The entries of the model's output *)

(** The rows the mapping yields, entry by entry. *)
Lemma map_from_entries q qs rows :
  questionsToInsert q qs = inr rows ->
  length rows = length qs /\
  forall i x, qs !! i = Some x ->
    exists row,
      rows !! i = Some row /\
      quiz_id_ row = q /\
      question_order row = (i + 1)%nat /\
      get_property x (js "question") = inr (question row) /\
      get_property x (js "options") = inr (options row) /\
      get_property x (js "correct_answer") = inr (correct_answer row).
Proof.
  intros (Hlen & Hids & Hord & Hrows)%map_from_rows. split; [done|].
  intros i x Hx.
  assert (Hi : (i < length rows)%nat).
  { rewrite Hlen. by apply lookup_lt_Some in Hx. }
  destruct (lookup_lt_is_Some_2 rows i Hi) as [row Hrow].
  exists row. split; [done|].
  destruct (Hrows i row Hrow) as (x' & Hx' & Hq & Ho & Hc).
  assert (x' = x) as -> by congruence.
  split.
  { assert (Hid : (quiz_id_ <$> rows) !! i = Some (quiz_id_ row))
      by (by rewrite list_lookup_fmap, Hrow).
    rewrite Hids in Hid. by apply lookup_replicate in Hid as [-> _]. }
  split; [|done].
  assert (Ho' : (question_order <$> rows) !! i = Some (question_order row))
    by (by rewrite list_lookup_fmap, Hrow).
  rewrite Hord in Ho'. apply lookup_seq in Ho' as [-> _]. lia.
Qed.

(** What becomes of a completion with content, whatever the
    collaborators answer. *)
Lemma completion_cases {S : Type} (c : collaborator S) (req : request) (s : S)
    (p content : jsstring) :
  let o := run c (generateQuizHandler req) s in
  EvChatCompletion p (Completion (Some content)) ∈ trace_of o ->
  exit_of o = Returned tt /\
  exists pre q tg ex,
    generation q (Completion (Some content)) tg ex /\
    trace_of o = pre ++ EvChatCompletion p (Completion (Some content))
                     :: tg ++ closing ex /\
    forallb (negb ∘ is_insert) pre = true /\
    responses pre = [].
Proof.
  intros o Hin. subst o.
  destruct (handler_cases req) as [Heq | (d & Hd & Heq)]; rewrite Heq in *.
  { exfalso. unfold call in Hin. rewrite trace_vis in Hin. revert Hin.
    simpl. destruct (answer c _ _) as [[] s1]. absent. }
  destruct (handler_paths c d s Hd) as [Hh Hex]. split; [done|].
  destruct (handled_model_call d _ p _ Hh Hin)
    as (pre & q & tg & ex & Hg & _ & Ht & Hpre & Hres & _).
  by exists pre, q, tg, ex.
Qed.

(** C4, amended.  The handler checks the model's output for being
    parseable, an array and of length 10, and for nothing else.  A blank
    content gets the generic 500 with the detail of the empty response.
    A content that is not blank and whose cleaned text is not parseable
    JSON, parses to something that is not an array, or to an array whose
    length is not 10, gets the 500 of the format error, and the handler
    returns normally.  Ten entries of which one is [null] get the
    generic 500 with the [TypeError] of the mapping.  In these three
    cases no insert is issued, and in the fault-free world the stored
    questions are what they were.  Ten entries none of which is [null]
    are not inspected further: one insert of ten rows is issued, row [i]
    carrying the quiz, [question_order] [i + 1] and the [question],
    [options] and [correct_answer] of entry [i] as found, undefined when
    the entry has no such field. *)
Theorem malformed_output_rejected (req : request) (p content : jsstring) :
  (forall (S : Type) (c : collaborator S) (s : S),
      let o := run c (generateQuizHandler req) s in
      let t := trace_of o in
      EvChatCompletion p (Completion (Some content)) ∈ t ->
      (trim content = [] ->
         responses t =
           [{| status := 500;
               payload := Message (js "Internal server error.")
                            (Some (js "OpenAI returned empty response.")) |}] /\
         forallb (negb ∘ is_insert) t = true) /\
      (trim content ≠ [] -> bad_format (clean_response (trim content)) ->
         responses t =
           [{| status := 500;
               payload := Message (js "Invalid JSON format from OpenAI.") None |}] /\
         exit_of o = Returned tt /\
         forallb (negb ∘ is_insert) t = true) /\
      (forall qs,
         trim content ≠ [] ->
         JSON_parse (clean_response (trim content)) = Some (JArray qs) ->
         length qs = 10%nat ->
         (JNull ∈ qs ->
            responses t =
              [{| status := 500;
                  payload := Message (js "Internal server error.")
                    (Some (js "Cannot read properties of null (reading 'question')")) |}] /\
            forallb (negb ∘ is_insert) t = true) /\
         (JNull ∉ qs ->
            exists q rows r pre post,
              t = pre ++ EvChatCompletion p (Completion (Some content))
                      :: EvInsertQuestions rows r :: post /\
              forallb (negb ∘ is_insert) (pre ++ post) = true /\
              length rows = 10%nat /\
              forall i x, qs !! i = Some x ->
                exists row,
                  rows !! i = Some row /\
                  quiz_id_ row = q /\
                  question_order row = (i + 1)%nat /\
                  get_property x (js "question") = inr (question row) /\
                  get_property x (js "options") = inr (options row) /\
                  get_property x (js "correct_answer")
                  = inr (correct_answer row)))) /\
  (forall w : world,
      EvChatCompletion p (Completion (Some content)) ∈ trace_of (serve req w) ->
      trim content = []
      \/ bad_format (clean_response (trim content))
      \/ (exists qs, JSON_parse (clean_response (trim content)) = Some (JArray qs)
                     /\ length qs = 10%nat /\ JNull ∈ qs) ->
      quiz_questions (db (state_of (serve req w))) = quiz_questions (db w)).
Proof.
  match goal with |- ?general /\ _ => assert (Hgen : general) end.
  { intros S c s o t Hin. subst t.
    destruct (completion_cases c req s p content Hin)
      as (Hex & pre & q & tg & ex & Hg & Ht & Hpre & Hres).
    fold o in Hex, Ht. clearbody o. rewrite Ht. clear Hin Ht.
    split; [|split].
    - intros Hblank. inversion Hg; subst; try congruence.
      rewrite responses_app, forallb_app, Hres, Hpre. done.
    - intros Hne Hbad%parse_quiz_questions_None.
      inversion Hg; subst; try congruence.
      rewrite responses_app, forallb_app, Hres, Hpre. done.
    - intros qs Hne Hparse Hlen.
      assert (Hp : parse_quiz_questions (clean_response (trim content)) = Some qs)
        by (by apply parse_quiz_questions_Some).
      split.
      + intros Hnull.
        assert (Hthrow : questionsToInsert q qs = inl null_entry_error)
          by (by apply map_from_throws).
        assert (Hend : tg = [] /\ ex = Escaped null_entry_error).
        { inversion Hg; subst; try congruence.
          split; [done|]. f_equal. congruence. }
        destruct Hend as [-> ->].
        rewrite responses_app, forallb_app, Hres, Hpre. done.
      + intros Hnonull.
        assert (Hrows : exists rows, questionsToInsert q qs = inr rows).
        { destruct (questionsToInsert q qs) as [e|rows] eqn:Hm; [|by eexists].
          apply map_from_throws in Hm as [Hm _]. by destruct Hnonull. }
        destruct Hrows as [rows Hrows].
        destruct (map_from_entries q qs rows Hrows) as [Hl Hent].
        rewrite Hlen in Hl.
        inversion Hg as [| | | |? ? ? ? Hp' Hm|? ? rows' e ? Hp' Hm
                        |? ? rows' r e ? Hp' Hm He|? ? rows' r ? Hp' Hm He];
          subst; try congruence;
          (assert (rows' = rows) as -> by congruence).
        * exists q, rows, (Some e), pre, (closing (Escaped (new_error "Error inserting questions: " e))).
          split; [done|]. split; [|done].
          by rewrite forallb_app, Hpre.
        * exists q, rows, None, pre,
            (EvSelectQuestions q r
               :: closing (Escaped (new_error "Error fetching inserted questions: " e))).
          split; [done|]. split; [|done].
          by rewrite forallb_app, Hpre.
        * exists q, rows, None, pre,
            [EvSelectQuestions q r; EvResJson (questions_response (data r))].
          split; [done|]. split; [|done].
          by rewrite forallb_app, Hpre. }
  split; [done|].
  intros w Hin Hcase. apply fault_free_no_insert.
  destruct (Hgen world fault_free w Hin) as (Hblank & Hbad & Hten).
  destruct (decide (trim content = [])) as [He|Hne]; [by apply Hblank|].
  destruct Hcase as [He|[Hb|(qs & Hparse & Hlen & Hnull)]]; [done| |].
  - by apply Hbad.
  - by apply (Hten qs).
Qed.

Lemma malformed_output_rejected_witness :
  responses (trace_of (run fault_free
                         (generateQuizHandler (domain_request (js "algorithms")))
                         (fresh_world nine_questions)))
  = [{| status := 500;
        payload := Message (js "Invalid JSON format from OpenAI.") None |}] /\
  quiz_questions
    (db (state_of (serve (domain_request (js "algorithms"))
                     (fresh_world nine_questions))))
  = quiz_questions (db (fresh_world nine_questions)).
Proof.
  assert (Hne : trim nine_questions ≠ []) by (vm_compute; discriminate).
  assert (Hbad : bad_format (clean_response (trim nine_questions))).
  { right; right. eexists. split; [vm_compute; reflexivity|].
    vm_compute. discriminate. }
  destruct (malformed_output_rejected (domain_request (js "algorithms"))
              (prompt_of (js "algorithms")) nine_questions) as [Hg Hw].
  split.
  - apply (Hg world fault_free (fresh_world nine_questions)); [|done..].
    apply (list_elem_of_lookup_2 _ 3%nat). vm_compute. reflexivity.
  - apply (Hw (fresh_world nine_questions)); [|by right; left].
    apply (list_elem_of_lookup_2 _ 3%nat). vm_compute. reflexivity.
Defined.

(** ** Failing store calls *)







(** ** The quiz row and the retry *)

Lemma exec_keeps_quizzes {X : Type} (e : quizE X) w :
  is_quiz_insert (event_of e (exec e w).1) = false ->
  quizzes (db (exec e w).2) = quizzes (db w).
Proof. by destruct e. Qed.

Lemma fault_free_no_quiz_insert {A : Type} (p : prog A) w :
  forallb (negb ∘ is_quiz_insert) (trace_of (run fault_free p w)) = true ->
  quizzes (db (state_of (run fault_free p w))) = quizzes (db w).
Proof.
  revert w. induction p as [a|e|X e k IH]; intros w; [done..|].
  rewrite trace_vis, state_vis; cbn [forallb].
  intros [Hw Hrest]%andb_true_iff. rewrite IH by done.
  apply exec_keeps_quizzes. by apply negb_true_iff in Hw.
Qed.

Lemma generation_no_quiz_insert q m t ex :
  generation q m t ex -> forallb (negb ∘ is_quiz_insert) t = true.
Proof. by destruct 1. Qed.

Lemma answered_no_quiz_insert d q t ex :
  answered d q t ex -> forallb (negb ∘ is_quiz_insert) t = true.
Proof.
  intros Ha. destruct Ha as [| | |r m tg exg He Hq Hg]; try done.
  simpl. by apply generation_no_quiz_insert in Hg.
Qed.

Lemma answer_questions_keeps_quizzes d q w :
  quizzes (db (state_of (run fault_free (answer_questions d q) w))) = quizzes (db w).
Proof.
  apply fault_free_no_quiz_insert.
  apply (answered_no_quiz_insert d q _ _ (run_answer_questions fault_free d q w)).
Qed.

(** X9.  In the fault-free world a request adds the quiz of its domain,
    with the title [getDomainTitle] gives it, when the store has no quiz
    for the domain, whatever becomes of the generation; it never adds a
    second one and never touches the rows that are there. *)
Theorem quiz_created_once (d : jsstring) (w : world) :
  d ≠ [] ->
  quizzes (db (state_of (serve (domain_request d) w))) =
  quizzes (db w) ++
  match quizzes_of d (db w) with
  | [] => [new_quiz_row d (db w)]
  | _ => []
  end.
Proof.
  intros Hd. rewrite serve_phases by done.
  destruct (quizzes_of d (db w)) as [|q0 [|q1 l]] eqn:Hq.
  - rewrite (resolve_unseen d w Hq).
    unfold exit_of at 1, state_of at 1 2 3; cbn [fst snd].
    set (w1 := with_db w _).
    assert (Hw1 : quizzes (db w1) = quizzes (db w) ++ [new_quiz_row d (db w)]).
    { unfold w1, insert_quiz. by rewrite Hq. }
    rewrite <- Hw1, <- (answer_questions_keeps_quizzes d (next_id (db w)) w1).
    by destruct (exit_of _).
  - rewrite (resolve_existing d w q0 Hq).
    unfold exit_of at 1, state_of at 1 2 3; cbn [fst snd].
    rewrite app_nil_r, <- (answer_questions_keeps_quizzes d (quiz_row_id q0) w).
    by destruct (exit_of _).
  - rewrite (resolve_ambiguous d w q0 q1 l Hq).
    unfold exit_of, state_of; cbn [fst snd]. by rewrite app_nil_r.
Qed.

Lemma quiz_created_once_witness :
  quizzes (db (state_of (serve (domain_request (js "algorithms")) rejecting_world)))
  = quizzes (db rejecting_world) ++
    match quizzes_of (js "algorithms") (db rejecting_world) with
    | [] => [new_quiz_row (js "algorithms") (db rejecting_world)]
    | _ => []
    end.
Proof.
  apply (quiz_created_once (js "algorithms") rejecting_world).
  vm_compute. discriminate.
Defined.



(** ** Titles *)

(** X10.  A domain other than the six known ones gets the generic title;
    and the page that takes the quiz shows the title the server stores
    for every domain but [ai-ml]. *)
Theorem domain_titles :
  (forall d, d ∉ known_domains -> getDomainTitle d = js "Skill Assessment Quiz") /\
  (forall d, d ≠ js "ai-ml" -> QuizPage.getDomainTitle d = getDomainTitle d) /\
  QuizPage.getDomainTitle (js "ai-ml") ≠ getDomainTitle (js "ai-ml").
Proof.
  split; [|split].
  - intros d Hd. unfold getDomainTitle.
    repeat match goal with
           | |- context [decide (d = ?x)] =>
               destruct (decide (d = x)) as [->|?];
               [exfalso; apply Hd; unfold known_domains;
                repeat (first [by left | right])|]
           end.
    done.
  - intros d Hd. unfold QuizPage.getDomainTitle, getDomainTitle.
    repeat match goal with
           | |- context [decide (d = ?x)] =>
               destruct (decide (d = x)) as [?|?]; [done|]
           end.
    done.
  - vm_compute. discriminate.
Qed.

Lemma domain_titles_witness :
  getDomainTitle (js "devops") = js "Skill Assessment Quiz" /\
  QuizPage.getDomainTitle (js "backend") = getDomainTitle (js "backend").
Proof.
  split.
  - apply (proj1 domain_titles). unfold known_domains. intros Hin.
    repeat (apply elem_of_cons in Hin as [Hin|Hin];
            [vm_compute in Hin; discriminate Hin|]).
    by apply elem_of_nil in Hin.
  - apply (proj1 (proj2 domain_titles)). vm_compute. discriminate.
Defined.

(** ** Model calls of requests in flight *)

Lemma within_calls_bind {A B : Type} (n : nat) (p : prog A) (k : A -> prog B) :
  within_calls 0 p -> (forall a, within_calls n (k a)) ->
  within_calls n (bind p k).
Proof.
  intros Hp Hk. induction p as [a|e|X e h IH]; simpl in *; [done..|].
  destruct (calls_model e); [done|]. intros x. by apply IH.
Qed.

Lemma within_calls_try_catch {A : Type} (n : nat) (p : prog A) h :
  within_calls n p -> (forall e m, within_calls m (h e)) ->
  within_calls n (try_catch p h).
Proof.
  intros Hp Hh. revert n Hp.
  induction p as [a|e|X e k IH]; intros n Hp; simpl in *; [done..|].
  destruct (calls_model e).
  - destruct n as [|m]; [done|]. intros x. by apply IH.
  - intros x. by apply IH.
Qed.

Lemma resolve_quiz_no_call d : within_calls 0 (resolve_quiz d).
Proof.
  unfold resolve_quiz, call; simpl. intros r.
  destruct (is_lookup_failure _); [done|].
  destruct (data r); [done|]. simpl. intros r'.
  destruct (error r'); [done|]. by destruct (data r').
Qed.

Lemma use_completion_no_call q m : within_calls 0 (use_completion q m).
Proof.
  unfold use_completion, call.
  destruct m as [[content|]|e]; simpl; try done.
  destruct (trim content) as [|ch raw]; [done|].
  destruct (parse_quiz_questions _) as [qs|]; [|done].
  destruct (questionsToInsert q qs) as [e|rows]; [done|].
  simpl. intros [e|]; [done|]. simpl. intros r. by destruct (error r).
Qed.

Lemma answer_questions_one_call d q : within_calls 1 (answer_questions d q).
Proof.
  unfold answer_questions, call; simpl. intros r.
  destruct (error r); [done|].
  destruct (has_questions _); simpl.
  - intros r'. by destruct (error r').
  - intros m. apply use_completion_no_call.
Qed.

Lemma handler_one_call req : within_calls 1 (generateQuizHandler req).
Proof.
  destruct (handler_cases req) as [-> | (d & Hd & ->)]; [done|].
  destruct d as [|ch d]; [done|].
  unfold generateQuizHandler; cbn [query_domain domain_request].
  apply within_calls_try_catch; [|done]. unfold quiz_flow.
  apply within_calls_bind; [apply resolve_quiz_no_call|]. intros q.
  apply answer_questions_one_call.
Qed.

Lemma sum_list_lookup_le (bs : list nat) i b :
  bs !! i = Some b -> (b <= sum_list bs)%nat.
Proof.
  revert i. induction bs as [|b' bs IH]; intros [|i] Hi; simpl in *; try done.
  - injection Hi as ->. lia.
  - specialize (IH i Hi). lia.
Qed.

Lemma sum_list_insert_pred (bs : list nat) i m :
  bs !! i = Some (S m) -> sum_list (<[i:=m]> bs) = pred (sum_list bs).
Proof.
  revert i. induction bs as [|b bs IH]; intros [|i] Hi; simpl in *; try done.
  - by injection Hi as ->.
  - rewrite (IH i Hi). pose proof (sum_list_lookup_le bs i _ Hi). lia.
Qed.

Lemma may_answer_model_calls {X : Type} (e : quizE X) w x w' :
  may_answer e w x w' ->
  model_calls w' = (if calls_model e then S (model_calls w) else model_calls w).
Proof.
  destruct e; simpl; try by intros ->.
  - intros [Ha|[_ ->]]; [|done].
    destruct (insert_quiz _ _ _). by injection Ha as _ ->.
  - by intros [[_ ->]|[_ ->]].
Qed.

Lemma step_budgeted w sys sys' :
  step sys sys' -> (exists bs, budgeted w sys bs) -> exists bs, budgeted w sys' bs.
Proof.
  intros Hstep (bs & Hb & Hsum).
  destruct Hstep as [sys req|sys i th X e k x w' Hth Hp Ha].
  - exists (bs ++ [1%nat]). split; simpl.
    + apply Forall2_app; [done|]. constructor; [apply handler_one_call|done].
    + rewrite sum_list_with_app, length_app. simpl. lia.
  - destruct (Forall2_lookup_r _ _ _ _ _ Hb Hth) as (b & Hbi & Hw).
    rewrite Hp in Hw. simpl in Hw.
    pose proof (may_answer_model_calls e _ _ _ Ha) as Hcalls.
    destruct (calls_model e) eqn:Hc.
    + destruct b as [|m]; [done|].
      exists (<[i:=m]> bs). split; simpl.
      * apply Forall2_insert; [done|]. apply Hw.
      * rewrite length_insert, Hcalls, (sum_list_insert_pred bs i m Hbi).
        pose proof (sum_list_lookup_le bs i _ Hbi). lia.
    + exists bs. split; simpl.
      * rewrite <- (list_insert_id bs i b Hbi) at 1.
        apply Forall2_insert; [done|]. apply Hw.
      * rewrite length_insert, Hcalls. lia.
Qed.

(** X11.  Whatever the interleaving of the requests and the failures of
    the collaborators, the model is called at most once per request
    received. *)
Theorem model_calls_bounded_by_requests (w : world) (sys : system) :
  reachable w sys ->
  (model_calls (env sys) <= model_calls w + length (threads sys))%nat.
Proof.
  intros Hreach.
  assert (Hinv : exists bs, budgeted w sys bs).
  { revert sys Hreach. unfold reachable. apply rtc_ind_r.
    - exists []. split; [constructor|]. simpl. lia.
    - intros sys1 sys2 _ Hstep IH. by eapply step_budgeted. }
  destruct Hinv as (bs & _ & Hsum). lia.
Qed.

Lemma model_calls_bounded_by_requests_witness :
  (model_calls (env race)
   <= model_calls (fresh_world ten_questions) + length (threads race))%nat.
Proof.
  apply (model_calls_bounded_by_requests (fresh_world ten_questions) race).
  apply schedule_reachable.
Defined.

(** ** The page that takes the quiz *)

Lemma count_correct_le recorded i qs :
  (QuizPage.count_correct recorded i qs <= length qs)%nat.
Proof.
  revert i. induction qs as [|q qs IH]; intros i; simpl; [lia|].
  specialize (IH (S i)). case_decide; lia.
Qed.

Lemma count_correct_insert_out recorded i qs c s :
  (c < i)%nat ->
  QuizPage.count_correct (<[c:=s]> recorded) i qs = QuizPage.count_correct recorded i qs.
Proof.
  revert i. induction qs as [|q qs IH]; intros i Hc; simpl; [done|].
  rewrite lookup_insert_ne by lia. rewrite IH by lia. done.
Qed.

(** Recording the answer of a question not answered before adds one to
    the count exactly when the answer is the correct one. *)
Lemma count_correct_insert recorded i qs j q s :
  recorded !! (i + j)%nat = None ->
  qs !! j = Some q ->
  QuizPage.count_correct (<[(i + j)%nat := s]> recorded) i qs =
  (QuizPage.count_correct recorded i qs
   + (if decide (s = QuizPage.correct_answer q) then 1 else 0))%nat.
Proof.
  revert i j. induction qs as [|q0 qs IH]; intros i j Hnone Hq; [done|].
  destruct j as [|j]; simpl in *.
  - injection Hq as ->. replace (i + 0)%nat with i in * by lia.
    rewrite lookup_insert_eq, Hnone.
    rewrite count_correct_insert_out by lia.
    rewrite (decide_False (P := None = _)) by done.
    destruct (decide (s = QuizPage.correct_answer q)) as [->|Hne].
    + rewrite decide_True by done. lia.
    + rewrite decide_False by congruence. lia.
  - rewrite lookup_insert_ne by lia.
    replace (i + S j)%nat with (S i + j)%nat in * by lia.
    rewrite (IH (S i) j Hnone Hq). lia.
Qed.

Lemma page_step_consistent qs p p' :
  QuizPage.ui_step p p' -> QuizPage.consistent qs p -> QuizPage.consistent qs p'.
Proof.
  intros Hstep [Hqs Hinv].
  destruct Hstep as [p q a Hshow Hq Ha|p p' Hshow Hsel Hnext|p Hshow Hc];
    rewrite Hshow in Hinv; destruct Hinv as (Hcur & Hselected & Hkeys & Hatt).
  - split; [done|]. simpl. rewrite Hshow.
    apply lookup_lt_Some in Hq. rewrite Hqs in Hq.
    split; [by left|]. split; [done|]. done.
  - unfold QuizPage.handleNext in Hnext.
    destruct (QuizPage.selectedAnswer p) as [s|] eqn:Hs; [|done].
    assert (Hlt : (QuizPage.currentQuestion p < length qs)%nat) by (by apply Hselected).
    rewrite Hqs in Hnext.
    destruct (decide (S (QuizPage.currentQuestion p) < length qs)%nat) as [Hmore|Hlast].
    + injection Hnext as <-. split; [done|]. simpl. rewrite Hshow.
      split; [by left|]. split; [done|]. split; [|done].
      intros i [x Hi]. destruct (decide (i = QuizPage.currentQuestion p)) as [->|Hne].
      * done.
      * simpl in Hi. rewrite lookup_insert_ne in Hi by done.
        apply Hkeys. by exists x.
    + destruct (qs !! QuizPage.currentQuestion p) as [q|] eqn:Hq.
      2:{ apply lookup_ge_None in Hq. lia. }
      injection Hnext as <-. split; [done|]. simpl.
      split; [by intros ->|]. split; simpl.
      * assert (Hnone : QuizPage.answers p !! (0 + QuizPage.currentQuestion p)%nat = None).
        { simpl. destruct (QuizPage.answers p !! QuizPage.currentQuestion p) eqn:Hx; [|done].
          exfalso. apply Hlast. apply Hkeys. by eexists. }
        pose proof (count_correct_insert _ 0 qs _ q s Hnone Hq) as Hcount.
        simpl in Hcount. rewrite Hcount.
        destruct (decide (s = QuizPage.correct_answer q)); lia.
      * rewrite Hatt. unfold QuizPage.submitQuizResults. simpl. by rewrite Hqs.
  - unfold QuizPage.handlePrevious.
    destruct (QuizPage.currentQuestion p) as [|i] eqn:Hcur'; [done|].
    split; [done|]. simpl. rewrite Hshow.
    assert (Hi : (i < length qs)%nat).
    { destruct Hcur as [?|[_ ?]]; lia. }
    split; [by left|]. split; [done|]. done.
Qed.

Lemma page_consistent qs (quiz usr : option jsstring) p :
  rtc QuizPage.ui_step (QuizPage.loaded qs quiz usr) p -> QuizPage.consistent qs p.
Proof.
  revert p. apply rtc_ind_r.
  - split; [done|]. simpl. split.
    + destruct qs; [by right|left; simpl; lia].
    + split; [done|]. split; [|done]. intros i [x Hx].
      simpl in Hx. by rewrite lookup_empty in Hx.
  - intros p1 p2 _ Hstep IH. by eapply page_step_consistent.
Qed.

(** X13.  Whatever the user did on the page since the quiz was loaded,
    while the questions show and an answer is selected the current
    question is one of the loaded questions and [handleNext] finds the
    question it reads: it does not throw. *)
Theorem quiz_page_in_bounds (qs : list QuizPage.Question)
    (quiz usr : option jsstring) (p : QuizPage.state) :
  rtc QuizPage.ui_step (QuizPage.loaded qs quiz usr) p ->
  QuizPage.showResults p = false ->
  QuizPage.selectedAnswer p ≠ None ->
  QuizPage.questions p = qs /\
  (QuizPage.currentQuestion p < length qs)%nat /\
  is_Some (QuizPage.handleNext p).
Proof.
  intros Hreach Hshow Hsel.
  destruct (page_consistent _ _ _ _ Hreach) as [Hqs Hinv].
  split; [done|]. rewrite Hshow in Hinv.
  destruct Hinv as (Hcur & Hselected & Hkeys & Hatt).
  split; [by apply Hselected|].
  unfold QuizPage.handleNext.
  destruct (QuizPage.selectedAnswer p) as [s|]; [|done].
  rewrite Hqs. case_decide; [by eexists|].
  destruct (qs !! QuizPage.currentQuestion p) as [q|] eqn:Hq; [by eexists|].
  apply lookup_ge_None in Hq. specialize (Hselected Hsel). lia.
Qed.

Lemma second_question_reached :
  rtc QuizPage.ui_step
    (QuizPage.loaded QuizPage.two_questions (Some (js "quiz-1")) (Some (js "user-1")))
    QuizPage.second_question.
Proof.
  eapply rtc_l.
  { eapply (QuizPage.ui_select _ _ (js "B")); [done|done|]. right. left. }
  eapply rtc_l.
  { apply QuizPage.ui_next; [done|done|]. reflexivity. }
  apply rtc_once.
  eapply (QuizPage.ui_select _ _ (js "A")); [done|reflexivity|left].
Qed.

Lemma results_reached :
  rtc QuizPage.ui_step
    (QuizPage.loaded QuizPage.two_questions (Some (js "quiz-1")) (Some (js "user-1")))
    QuizPage.results.
Proof.
  etrans; [apply second_question_reached|].
  eapply rtc_l.
  { apply QuizPage.ui_previous; [reflexivity|]. vm_compute. discriminate. }
  eapply rtc_l.
  { eapply (QuizPage.ui_select _ _ (js "A")); [reflexivity|reflexivity|left]. }
  eapply rtc_l.
  { apply QuizPage.ui_next; [reflexivity|done|]. reflexivity. }
  eapply rtc_l.
  { eapply (QuizPage.ui_select _ _ (js "A")); [reflexivity|reflexivity|left]. }
  apply rtc_once.
  apply QuizPage.ui_next; [reflexivity|done|]. reflexivity.
Qed.

Lemma quiz_page_in_bounds_witness :
  QuizPage.questions QuizPage.second_question = QuizPage.two_questions /\
  (QuizPage.currentQuestion QuizPage.second_question
     < length QuizPage.two_questions)%nat /\
  is_Some (QuizPage.handleNext QuizPage.second_question).
Proof.
  apply (quiz_page_in_bounds QuizPage.two_questions
           (Some (js "quiz-1")) (Some (js "user-1")) QuizPage.second_question).
  - apply second_question_reached.
  - reflexivity.
  - vm_compute. discriminate.
Defined.

(** X14.  When the results show, there was a question to answer, the
    score is the number of questions whose recorded answer is the
    correct one and does not exceed the number of questions, and at most
    one attempt was sent to the store, with that score and that number
    of questions. *)
Theorem quiz_page_score (qs : list QuizPage.Question) (quiz usr : option jsstring)
    (p : QuizPage.state) :
  rtc QuizPage.ui_step (QuizPage.loaded qs quiz usr) p ->
  QuizPage.showResults p = true ->
  qs ≠ [] /\
  QuizPage.score p = QuizPage.count_correct (QuizPage.answers p) 0 qs /\
  (QuizPage.score p <= length qs)%nat /\
  (length (QuizPage.attempts p) <= 1)%nat /\
  Forall (fun a => QuizPage.attempt_score a = QuizPage.score p /\
                  QuizPage.max_score a = length qs) (QuizPage.attempts p).
Proof.
  intros Hreach Hshow. destruct (page_consistent _ _ _ _ Hreach) as [Hqs Hinv].
  rewrite Hshow in Hinv. destruct Hinv as (Hne & Hscore & Hatt).
  split; [done|]. split; [done|].
  split; [rewrite Hscore; apply count_correct_le|].
  rewrite Hatt. unfold QuizPage.submitQuizResults. rewrite Hqs.
  destruct (QuizPage.quizId p) as [[|c s]|], (QuizPage.user p) as [u|];
    simpl; (split; [lia|]); by repeat constructor.
Qed.

Lemma quiz_page_score_witness :
  QuizPage.two_questions ≠ [] /\
  QuizPage.score QuizPage.results
  = QuizPage.count_correct (QuizPage.answers QuizPage.results) 0
      QuizPage.two_questions /\
  (QuizPage.score QuizPage.results <= length QuizPage.two_questions)%nat /\
  (length (QuizPage.attempts QuizPage.results) <= 1)%nat /\
  Forall (fun a => QuizPage.attempt_score a = QuizPage.score QuizPage.results /\
                  QuizPage.max_score a = length QuizPage.two_questions)
    (QuizPage.attempts QuizPage.results).
Proof.
  apply (quiz_page_score QuizPage.two_questions
           (Some (js "quiz-1")) (Some (js "user-1")) QuizPage.results).
  - apply results_reached.
  - reflexivity.
Defined.

(** ** Cleaning the model's output *)

Lemma trim_solid_start ws0 c s ws3 :
  is_js_space c = false ->
  Forall (fun c => is_js_space c = true) ws0 ->
  Forall (fun c => is_js_space c = true) ws3 ->
  trim (ws0 ++ (c :: s) ++ ws3) = trim_end (c :: s).
Proof.
  intros Hc Hws0 Hws3. unfold trim.
  rewrite trim_start_spaces by done.
  rewrite <- app_comm_cons, trim_start_solid by done.
  rewrite app_comm_cons. by apply trim_end_spaces.
Qed.

(** X12.  What the cleaning makes of the model's output when the text is
    a bracketed array: white space around it is removed, and so is a
    fence tagged [json], in any letter case, with the white space inside
    and around it.  In both cases exactly the array is left. *)
Theorem clean_response_unwraps (tag ws0 ws1 mid ws2 ws3 : jsstring) :
  lower_ascii <$> tag = js "json" ->
  Forall (fun c => is_js_space c = true) (ws0 ++ ws1 ++ ws2 ++ ws3) ->
  let text := 0x5B :: mid ++ [0x5D] in
  clean_response (trim (ws0 ++ text ++ ws3)) = text /\
  clean_response
    (trim (ws0 ++ (js "```" ++ tag ++ ws1 ++ text ++ ws2 ++ js "```") ++ ws3))
  = text.
Proof.
  intros Htag Hws text.
  apply Forall_app in Hws as [Hws0 Hws].
  apply Forall_app in Hws as [Hws1 Hws].
  apply Forall_app in Hws as [Hws2 Hws3].
  assert (Htext : trim_end text = text).
  { unfold text. rewrite app_comm_cons. by apply trim_end_solid. }
  split.
  - unfold text at 1. rewrite trim_solid_start by done. fold text.
    rewrite Htext. unfold clean_response.
    assert (Hlead : replace_leading_fence text = text) by done.
    assert (Htrail : replace_trailing_fence text = text).
    { unfold replace_trailing_fence, text.
      rewrite app_comm_cons, rev_unit. done. }
    rewrite Hlead, Htrail. unfold trim, text at 1.
    by rewrite trim_start_solid.
  - etrans; [|apply (tagged_fence_stripped tag ws1 mid ws2 Htag Hws1 Hws2)].
    f_equal. fold text.
    change (js "```") with [0x60; 0x60; 0x60] at 1 3.
    cbn [app].
    etrans;
      [exact (trim_solid_start ws0 0x60
                (0x60 :: 0x60 :: tag ++ ws1 ++ text ++ ws2 ++ js "```") ws3
                eq_refl Hws0 Hws3)|].
    unfold trim. by rewrite trim_start_solid.
Qed.

Lemma clean_response_unwraps_witness :
  clean_response (trim ([0x0A] ++ (0x5B :: js "1, 2" ++ [0x5D]) ++ [0x20])) 
  = 0x5B :: js "1, 2" ++ [0x5D] /\
  clean_response
    (trim ([0x0A] ++ (js "```" ++ js "JSON" ++ [0x0A]
                      ++ (0x5B :: js "1, 2" ++ [0x5D]) ++ [0x0A] ++ js "```")
           ++ [0x20]))
  = 0x5B :: js "1, 2" ++ [0x5D].
Proof.
  apply (clean_response_unwraps (js "JSON") [0x0A] [0x0A] (js "1, 2") [0x0A] [0x20]).
  - reflexivity.
  - by repeat constructor.
Defined.
